(** * KML point to DJI mission converter: a shallow embedding of [convert.py]

    The development follows the structure of the script: Python strings and
    the few [str]/[re] operations the script relies on, the ElementTree view
    of a KML document, the marker parser ([parse_kml_point],
    [parse_all_kml_points]), the attribute extractor
    ([extract_html_table_attribute_from_text]), the document generator
    ([create_dji_mission_kml]) and the orchestration loop
    ([process_all_points]) with its writes to the output directory. *)

From Stdlib Require Import String Ascii NArith List Lia.
From stdpp Require Import base option list sorting gmap.

Set Warnings "-register-all".
Local Open Scope list_scope.

(** ** Python strings

    A Python [str] is a sequence of Unicode code points. *)

Abbreviation pystr := (list N).

Definition ch (a : ascii) : N := N_of_ascii a.

Fixpoint py (s : string) : pystr :=
  match s with
  | EmptyString => []
  | String a s' => ch a :: py s'
  end.

(** [Py_UNICODE_ISSPACE]: the code points for which [str.isspace], [str.strip]
    and the regular-expression class [\s] agree on "whitespace". *)
Definition isspace (c : N) : bool :=
  ((9 <=? c) && (c <=? 13) || (28 <=? c) && (c <=? 32)
   || (c =? 133) || (c =? 160) || (c =? 5760)
   || (8192 <=? c) && (c <=? 8202)
   || (c =? 8232) || (c =? 8233) || (c =? 8239) || (c =? 8287)
   || (c =? 12288))%N.

Definition isdigit_ascii (c : N) : bool := ((48 <=? c) && (c <=? 57))%N.
Definition isupper_ascii (c : N) : bool := ((65 <=? c) && (c <=? 90))%N.
Definition islower_ascii (c : N) : bool := ((97 <=? c) && (c <=? 122))%N.

(** What the script takes from the Python runtime without defining it: the
    Unicode alphanumeric table beyond ASCII, and the [float] type with its
    constructor from text ([None] stands for [ValueError]), its formatting
    inside an f-string and the literal [0.0]. *)
Class PyRuntime := {
  unicode_isalnum : N -> bool;
  float : Type;
  float_of_str : pystr -> option float;
  str_of_float : float -> pystr;
  float_zero : float
}.

Section Strings.
Context {rt : PyRuntime}.

(** [Py_UNICODE_ISALNUM] *)
Definition isalnum (c : N) : bool :=
  if (c <? 128)%N
  then isdigit_ascii c || isupper_ascii c || islower_ascii c
  else unicode_isalnum c.

(** The class [\w] of a [str] pattern: alphanumeric or underscore. *)
Definition isword (c : N) : bool := isalnum c || (c =? ch "_")%N.

End Strings.

Fixpoint dropwhile (p : N -> bool) (s : pystr) : pystr :=
  match s with
  | [] => []
  | c :: s' => if p c then dropwhile p s' else s
  end.

(** [str.strip()] with no argument. *)
Definition lstrip (s : pystr) : pystr := dropwhile isspace s.
Definition rstrip (s : pystr) : pystr := rev (dropwhile isspace (rev s)).
Definition strip (s : pystr) : pystr := rstrip (lstrip s).

(** [sep.join(parts)] *)
Fixpoint join (sep : pystr) (parts : list pystr) : pystr :=
  match parts with
  | [] => []
  | [p] => p
  | p :: ps => p ++ sep ++ join sep ps
  end.

(** [s.split(sep)] for a one-character separator: never the empty list. *)
Fixpoint split (sep : N) (s : pystr) : list pystr :=
  match s with
  | [] => [[]]
  | c :: s' =>
      if (c =? sep)%N then [] :: split sep s'
      else match split sep s' with
           | [] => [[c]]
           | w :: ws => (c :: w) :: ws
           end
  end.

(** ** Regular expressions

    The patterns of the script are sequences of one-character tests, greedy
    and lazy repetitions of a one-character test, and one capture group.
    [match_here] is the backtracking matcher of [re]: alternatives are tried
    in priority order and the first complete match wins. *)

Inductive item :=
  | Chr (p : N -> bool)      (* one character satisfying [p] *)
  | StarG (p : N -> bool)    (* [p*], longest first *)
  | StarL (p : N -> bool)    (* [p*?], shortest first *)
  | GOpen                    (* start of group 1 *)
  | GClose.                  (* end of group 1 *)

Record rmatch := { group1 : pystr; rest : pystr }.

Fixpoint match_here (pat : list item) (s : pystr) (gstart g1 : pystr)
  : option rmatch :=
  match pat with
  | [] => Some {| group1 := g1; rest := s |}
  | Chr p :: pat' =>
      match s with
      | c :: s' => if p c then match_here pat' s' gstart g1 else None
      | [] => None
      end
  | StarG p :: pat' =>
      (fix star (s : pystr) : option rmatch :=
         match s with
         | c :: s' =>
             if p c then
               match star s' with
               | Some r => Some r
               | None => match_here pat' s gstart g1
               end
             else match_here pat' s gstart g1
         | [] => match_here pat' [] gstart g1
         end) s
  | StarL p :: pat' =>
      (fix star (s : pystr) : option rmatch :=
         match match_here pat' s gstart g1 with
         | Some r => Some r
         | None =>
             match s with
             | c :: s' => if p c then star s' else None
             | [] => None
             end
         end) s
  | GOpen :: pat' => match_here pat' s s g1
  | GClose :: pat' =>
      match_here pat' s gstart (take (length gstart - length s) gstart)
  end.

Definition match_at (pat : list item) (s : pystr) : option rmatch :=
  match_here pat s [] [].

(** [re.search]: the leftmost position at which the pattern matches. *)
Fixpoint re_search (pat : list item) (s : pystr) : option rmatch :=
  match match_at pat s with
  | Some r => Some r
  | None =>
      match s with
      | [] => None
      | _ :: s' => re_search pat s'
      end
  end.

(** [re.sub(pat, repl, s)]: leftmost non-overlapping matches are replaced.
    [skip] counts the characters of the current match still to be dropped.
    Every pattern of the script consumes at least one character, so the
    rule of [re.sub] for empty matches is never exercised; a position where
    nothing is consumed is copied like a position without a match. *)
Fixpoint re_sub_from (pat : list item) (repl : pystr) (skip : nat) (s : pystr)
  : pystr :=
  match s with
  | [] => []
  | c :: s' =>
      match skip with
      | S k => re_sub_from pat repl k s'
      | O =>
          match match_at pat s with
          | Some r =>
              match length s - length (rest r) with
              | S k => repl ++ re_sub_from pat repl k s'
              | O => c :: re_sub_from pat repl 0 s'
              end
          | None => c :: re_sub_from pat repl 0 s'
          end
      end
  end.

Definition re_sub (pat : list item) (repl s : pystr) : pystr :=
  re_sub_from pat repl 0 s.

Definition any_char (c : N) : bool := true.
Definition is_char (x : N) (c : N) : bool := (c =? x)%N.
Definition not_char (x : N) (c : N) : bool := negb (c =? x)%N.

(** A lower-case ASCII letter of a pattern compiled with [re.IGNORECASE]
    matches the characters whose lower-case form it is: itself, its ASCII
    capital and, for [k], the Kelvin sign U+212A. Other characters of the
    patterns are uncased. *)
Definition ci_char (x : N) (c : N) : bool :=
  ((c =? x) || (islower_ascii x && (c + 32 =? x))
   || ((x =? ch "k") && (c =? 8490)))%N.

Definition ci_lit (s : string) : list item := map (fun x => Chr (ci_char x)) (py s).

Section Sanitize.
Context {rt : PyRuntime}.

(** [[^\w\-_\s]] *)
Definition disallowed (c : N) : bool :=
  negb (isword c || (c =? ch "-")%N || (c =? ch "_")%N || isspace c).

(** [\s+] *)
Definition ws_run : list item := [Chr isspace; StarG isspace].

(** The two substitutions at the head of [create_dji_mission_kml], repeated
    for the label in [process_all_points]:
<<
    clean_name = re.sub(r'[^\w\-_\s]', '_', mission_name)
    clean_name = re.sub(r'\s+', '_', clean_name.strip())
>> *)
Definition sanitize (name : pystr) : pystr :=
  let clean_name := re_sub [Chr disallowed] (py "_") name in
  re_sub ws_run (py "_") (strip clean_name).

End Sanitize.

(** An instance of the runtime interface on which the definitions can be
    evaluated: ASCII-only alphanumerics, and integers written in decimal in
    place of floating-point numbers. *)
Definition digits_value (s : pystr) : option N :=
  match s with
  | [] => None
  | _ =>
      fold_left
        (fun acc c =>
           match acc with
           | Some v => if isdigit_ascii c then Some (10 * v + (c - 48))%N else None
           | None => None
           end) s (Some 0%N)
  end.

Definition int_of_str (s : pystr) : option Z :=
  match strip s with
  | c :: ds =>
      if (c =? ch "-")%N then (fun v => Z.opp (Z.of_N v)) <$> digits_value ds
      else Z.of_N <$> digits_value (c :: ds)
  | [] => None
  end.

Fixpoint digits_of_pos_fuel (fuel : nat) (n : N) (acc : pystr) : pystr :=
  match fuel with
  | O => acc
  | S f =>
      let acc' := (48 + n mod 10)%N :: acc in
      if (n <? 10)%N then acc' else digits_of_pos_fuel f (n / 10)%N acc'
  end.

Definition str_of_N (n : N) : pystr := digits_of_pos_fuel (S (N.to_nat n)) n [].

Definition str_of_int (z : Z) : pystr :=
  if (z <? 0)%Z then ch "-" :: str_of_N (Z.to_N (- z)) else str_of_N (Z.to_N z).

Definition int_runtime : PyRuntime :=
  {| unicode_isalnum := fun _ => false;
     float := Z;
     float_of_str := int_of_str;
     str_of_float := str_of_int;
     float_zero := 0%Z |}.

(** ** Exceptions

    A call either returns a value or raises. *)

Inductive exn :=
  | ValueError
  | FileNotFoundError
  | ParseError           (* whatever [ET.parse] raises: unreadable or malformed *)
  | OSError              (* what [open] raises when it cannot create the file *)
  | SystemExit (code : nat).

Inductive outcome (A : Type) :=
  | Return (a : A)
  | Raise (e : exn).
Arguments Return {A} a.
Arguments Raise {A} e.

#[global] Instance outcome_ret : MRet outcome := fun A a => Return a.
#[global] Instance outcome_bind : MBind outcome := fun A B k m =>
  match m with
  | Return a => k a
  | Raise e => Raise e
  end.

(** [try: body  except Exception: handler]; [SystemExit] is not an
    [Exception] and passes through. *)
Definition try_except {A : Type} (body : outcome A) (handler : exn -> outcome A)
  : outcome A :=
  match body with
  | Return a => Return a
  | Raise (SystemExit c) => Raise (SystemExit c)
  | Raise e => handler e
  end.

(** ** ElementTree

    An element has a tag, an optional text and children; a namespaced tag
    is stored as [{uri}local]. A file either parses to a root element or
    makes [ET.parse] raise. *)

Inductive element :=
  | Element (tag : pystr) (text : option pystr) (children : list element).

Definition tag (e : element) : pystr := let 'Element t _ _ := e in t.
Definition text (e : element) : option pystr := let 'Element _ t _ := e in t.
Definition children (e : element) : list element := let 'Element _ _ c := e in c.

Inductive xml_file :=
  | Unparsable
  | Parsed (root : element).

Definition ET_parse (f : xml_file) : outcome element :=
  match f with
  | Unparsable => Raise ParseError
  | Parsed root => Return root
  end.

(** [Element.iter()]: the element and its descendants in document order. *)
Fixpoint iter (e : element) : list element :=
  match e with
  | Element _ _ cs =>
      e :: (fix iter_all (l : list element) : list element :=
              match l with
              | [] => []
              | c :: l' => iter c ++ iter_all l'
              end) cs
  end.

(** The path [.//tag]: the descendants with that tag, the element itself
    excluded. *)
Definition descendants (e : element) : list element := tail (iter e).

Definition findall (t : pystr) (e : element) : list element :=
  filter (fun d => tag d = t) (descendants e).

Definition find (t : pystr) (e : element) : option element :=
  head (findall t e).

Definition kml_namespace : pystr := py "http://www.opengis.net/kml/2.2".

(** The tag that [kml:local] denotes under [namespace]. *)
Definition kml (local : string) : pystr :=
  py "{" ++ kml_namespace ++ py "}" ++ py local.

(** The lookup repeated for coordinates, name and description: qualified
    first, unqualified when that finds nothing. *)
Definition find_kml (local : string) (e : element) : option element :=
  match find (kml local) e with
  | Some x => Some x
  | None => find (py local) e
  end.

(** Truth value of [elem is not None and elem.text]: the text when it is
    present and not empty. *)
Definition text_of (oe : option element) : option pystr :=
  match oe with
  | Some e =>
      match text e with
      | Some (c :: t) => Some (c :: t)
      | _ => None
      end
  | None => None
  end.

Fixpoint enumerate_from {A : Type} (start : nat) (l : list A) : list (nat * A) :=
  match l with
  | [] => []
  | x :: l' => (start, x) :: enumerate_from (S start) l'
  end.

(** [str(n)] for a non-negative integer. *)
Definition str_of_nat (n : nat) : pystr := str_of_N (N.of_nat n).

(** The format specification [03d]: at least three digits, zero padded. *)
Definition format_03d (n : nat) : pystr :=
  let ds := str_of_nat n in
  replicate (3 - length ds) (ch "0") ++ ds.

(** Order of [str]: lexicographic on code points. *)
Fixpoint pystr_leb (a b : pystr) : bool :=
  match a, b with
  | [], _ => true
  | _ :: _, [] => false
  | x :: a', y :: b' =>
      if (x <? y)%N then true
      else if (y <? x)%N then false
      else pystr_leb a' b'
  end.

(** [sorted] on the paths of one directory: by name, stable. *)
Fixpoint insert_sorted {A : Type} (x : pystr * A) (l : list (pystr * A))
  : list (pystr * A) :=
  match l with
  | [] => [x]
  | y :: l' =>
      if pystr_leb (fst y) (fst x) then y :: insert_sorted x l' else x :: l
  end.

Definition sorted {A : Type} (l : list (pystr * A)) : list (pystr * A) :=
  foldr insert_sorted [] (rev l).

Definition endswith (suffix s : pystr) : bool :=
  bool_decide (drop (length s - length suffix) s = suffix).

(** [dir.glob("*.kml")]: the entries whose name ends in [.kml]. *)
Definition glob_kml {A : Type} (listing : list (pystr * A)) : list (pystr * A) :=
  filter (fun e => endswith (py ".kml") (fst e) = true) listing.

(** [Path.stem] of a name that ends in [.kml]: the name without that suffix,
    unless the name is [.kml] itself. *)
Definition stem (name : pystr) : pystr :=
  if decide (name = py ".kml") then name else take (length name - 4) name.

Definition dq : pystr := [34%N].
Definition nl : pystr := [10%N].
Definition tab : pystr := [9%N].

(** The constant parts of the f-string of [create_dji_mission_kml]. *)
Definition kml_head : pystr :=
  py "<?xml version=" ++ dq ++ py "1.0" ++ dq ++ py " encoding=" ++ dq ++ py "UTF-8" ++ dq ++ py "?>" ++ nl
  ++ py "<kml xmlns=" ++ dq ++ py "http://www.opengis.net/kml/2.2" ++ dq ++ py " xmlns:gx=" ++ dq ++ py "http://www.google.com/kml/ext/2.2" ++ dq ++ py " xmlns:kml=" ++ dq ++ py "http://www.opengis.net/kml/2.2" ++ dq ++ py " xmlns:atom=" ++ dq ++ py "http://www.w3.org/2005/Atom" ++ dq ++ py ">" ++ nl
  ++ py "<Document>" ++ nl
  ++ tab ++ py "<name>".

Definition kml_styles : pystr :=
  py ".kml</name>" ++ nl
  ++ tab ++ py "<StyleMap id=" ++ dq ++ py "m_ylw-pushpin" ++ dq ++ py ">" ++ nl
  ++ tab ++ tab ++ py "<Pair>" ++ nl
  ++ tab ++ tab ++ tab ++ py "<key>normal</key>" ++ nl
  ++ tab ++ tab ++ tab ++ py "<styleUrl>#s_ylw-pushpin</styleUrl>" ++ nl
  ++ tab ++ tab ++ py "</Pair>" ++ nl
  ++ tab ++ tab ++ py "<Pair>" ++ nl
  ++ tab ++ tab ++ tab ++ py "<key>highlight</key>" ++ nl
  ++ tab ++ tab ++ tab ++ py "<styleUrl>#s_ylw-pushpin_hl</styleUrl>" ++ nl
  ++ tab ++ tab ++ py "</Pair>" ++ nl
  ++ tab ++ py "</StyleMap>" ++ nl
  ++ tab ++ py "<Style id=" ++ dq ++ py "s_ylw-pushpin" ++ dq ++ py ">" ++ nl
  ++ tab ++ tab ++ py "<IconStyle>" ++ nl
  ++ tab ++ tab ++ tab ++ py "<scale>1.1</scale>" ++ nl
  ++ tab ++ tab ++ tab ++ py "<Icon>" ++ nl
  ++ tab ++ tab ++ tab ++ tab ++ py "<href>http://maps.google.com/mapfiles/kml/pushpin/ylw-pushpin.png</href>" ++ nl
  ++ tab ++ tab ++ tab ++ py "</Icon>" ++ nl
  ++ tab ++ tab ++ tab ++ py "<hotSpot x=" ++ dq ++ py "20" ++ dq ++ py " y=" ++ dq ++ py "2" ++ dq ++ py " xunits=" ++ dq ++ py "pixels" ++ dq ++ py " yunits=" ++ dq ++ py "pixels" ++ dq ++ py "/>" ++ nl
  ++ tab ++ tab ++ py "</IconStyle>" ++ nl
  ++ tab ++ py "</Style>" ++ nl
  ++ tab ++ py "<Style id=" ++ dq ++ py "s_ylw-pushpin_hl" ++ dq ++ py ">" ++ nl
  ++ tab ++ tab ++ py "<IconStyle>" ++ nl
  ++ tab ++ tab ++ tab ++ py "<scale>1.3</scale>" ++ nl
  ++ tab ++ tab ++ tab ++ py "<Icon>" ++ nl
  ++ tab ++ tab ++ tab ++ tab ++ py "<href>http://maps.google.com/mapfiles/kml/pushpin/ylw-pushpin.png</href>" ++ nl
  ++ tab ++ tab ++ tab ++ py "</Icon>" ++ nl
  ++ tab ++ tab ++ tab ++ py "<hotSpot x=" ++ dq ++ py "20" ++ dq ++ py " y=" ++ dq ++ py "2" ++ dq ++ py " xunits=" ++ dq ++ py "pixels" ++ dq ++ py " yunits=" ++ dq ++ py "pixels" ++ dq ++ py "/>" ++ nl
  ++ tab ++ tab ++ py "</IconStyle>" ++ nl
  ++ tab ++ py "</Style>" ++ nl
  ++ tab ++ py "<Placemark>" ++ nl
  ++ tab ++ tab ++ py "<name>".

Definition kml_line_open : pystr :=
  py "</name>" ++ nl
  ++ tab ++ tab ++ py "<styleUrl>#m_ylw-pushpin</styleUrl>" ++ nl
  ++ tab ++ tab ++ py "<LineString>" ++ nl
  ++ tab ++ tab ++ tab ++ py "<tessellate>1</tessellate>" ++ nl
  ++ tab ++ tab ++ tab ++ py "<coordinates>" ++ nl
  ++ tab ++ tab ++ tab ++ tab.

Definition kml_tail : pystr :=
  py " " ++ nl
  ++ tab ++ tab ++ tab ++ py "</coordinates>" ++ nl
  ++ tab ++ tab ++ py "</LineString>" ++ nl
  ++ tab ++ tab ++ py "<atom:link rel=" ++ dq ++ py "app" ++ dq ++ py " href=" ++ dq ++ py "https://www.google.com/earth/about/versions/#earth-pro" ++ dq ++ py " title=" ++ dq ++ py "Google Earth Pro 7.3.6.10201" ++ dq ++ py "></atom:link>" ++ nl
  ++ tab ++ py "</Placemark>" ++ nl
  ++ py "</Document>" ++ nl
  ++ py "</kml>".

Section Converter.
Context {rt : PyRuntime}.

Definition py_float (s : pystr) : outcome float :=
  match float_of_str s with
  | Some f => Return f
  | None => Raise ValueError
  end.

(** A point is the tuple [(lon, lat, alt)]. *)
Definition point : Type := float * float * float.

(** The conversion shared by both parsers, once [len(coords) >= 2] holds:
<<
    lon = float(coords[0])
    lat = float(coords[1])
    alt = float(coords[2]) if len(coords) > 2 else 0.0
>> *)
Definition floats_of_coords (coords : list pystr) : outcome point :=
  lon ← py_float (default [] (coords !! 0%nat));
  lat ← py_float (default [] (coords !! 1%nat));
  alt ← (if decide (2 < length coords)
         then py_float (default [] (coords !! 2%nat))
         else Return float_zero);
  Return (lon, lat, alt).

(** *** [parse_kml_point] *)

Definition parse_kml_point_try (kml_file_path : xml_file) : outcome (option point) :=
  root ← ET_parse kml_file_path;
  let coordinates_elem := find_kml "coordinates" root in
  match text_of coordinates_elem with
  | Some t =>
      let coords_text := strip t in
      let coords := split (ch ",") coords_text in
      if decide (2 <= length coords)
      then p ← floats_of_coords coords; Return (Some p)
      else Return None
  | None => Return None
  end.

Definition parse_kml_point (kml_file_path : xml_file) : outcome (option point) :=
  try_except (parse_kml_point_try kml_file_path) (fun _ => Return None).

(** *** [extract_html_table_attribute_from_text] *)

(** [<tr[^>]*background[^>]*>.*?<td[^>]*>(.*?)</td>] under
    [re.DOTALL | re.IGNORECASE] *)
Definition table_pattern : list item :=
  ci_lit "<tr" ++ [StarG (not_char (ch ">"))] ++ ci_lit "background"
  ++ [StarG (not_char (ch ">")); Chr (is_char (ch ">")); StarL any_char]
  ++ ci_lit "<td" ++ [StarG (not_char (ch ">")); Chr (is_char (ch ">"))]
  ++ [GOpen; StarL any_char; GClose] ++ ci_lit "</td>".

(** [<[^>]+>] *)
Definition tag_pattern : list item :=
  [Chr (is_char (ch "<")); Chr (not_char (ch ">")); StarG (not_char (ch ">"));
   Chr (is_char (ch ">"))].

Definition extract_try (html_text : pystr) : outcome (option pystr) :=
  match html_text with
  | [] => Return None
  | _ =>
      match re_search table_pattern html_text with
      | Some m =>
          let attribute := strip (group1 m) in
          let attribute := strip (re_sub tag_pattern [] attribute) in
          Return (match attribute with [] => None | _ => Some attribute end)
      | None => Return None
      end
  end.

Definition extract_html_table_attribute_from_text (html_text : pystr)
  : outcome (option pystr) :=
  try_except (extract_try html_text) (fun _ => Return None).

(** *** [parse_all_kml_points] *)

Record point_data := {
  pd_name : pystr;
  pd_coordinates : point;
  pd_description : pystr;
  pd_table_attribute : option pystr
}.

(** One iteration of the loop over [enumerate(placemarks)]: the record to
    append, if any. *)
Definition placemark_step (i : nat) (placemark : element)
  : outcome (option point_data) :=
  let coordinates_elem := find_kml "coordinates" placemark in
  match text_of coordinates_elem with
  | Some t =>
      let coords_text := strip t in
      let coords := split (ch ",") coords_text in
      if decide (2 <= length coords) then
        p ← floats_of_coords coords;
        let name_elem := find_kml "name" placemark in
        let name := default (py "Point_" ++ str_of_nat (i + 1)) (text_of name_elem) in
        let desc_elem := find_kml "description" placemark in
        let description := default [] (text_of desc_elem) in
        table_attribute ← extract_html_table_attribute_from_text description;
        Return (Some {| pd_name := name; pd_coordinates := p;
                        pd_description := description;
                        pd_table_attribute := table_attribute |})
      else Return None
  | None => Return None
  end.

(** The loop mutates [points]; what was appended before an exception stays
    in the list. *)
Fixpoint placemark_loop (ps : list (nat * element)) (points : list point_data)
  : list point_data * outcome unit :=
  match ps with
  | [] => (points, Return tt)
  | (i, placemark) :: ps' =>
      match placemark_step i placemark with
      | Return (Some d) => placemark_loop ps' (points ++ [d])
      | Return None => placemark_loop ps' points
      | Raise e => (points, Raise e)
      end
  end.

(** [root.findall('.//kml:Placemark', namespace)], then the unqualified path
    when that list is empty. *)
Definition placemarks_of (root : element) : list element :=
  match findall (kml "Placemark") root with
  | [] => findall (py "Placemark") root
  | l => l
  end.

(** The [except] clause prints and falls through to [return points]. *)
Definition parse_all_kml_points (kml_file_path : xml_file) : list point_data :=
  match ET_parse kml_file_path with
  | Raise _ => []
  | Return root => fst (placemark_loop (enumerate_from 0 (placemarks_of root)) [])
  end.

(** *** [create_dji_mission_kml] *)

Definition coords_str (p : point) : pystr :=
  let '(x, y, z) := p in
  str_of_float x ++ py "," ++ str_of_float y ++ py "," ++ str_of_float z.

Definition create_dji_mission_kml (base_point target_point : point)
  (mission_name : pystr) : pystr :=
  let clean_name := sanitize mission_name in
  kml_head ++ clean_name ++ kml_styles ++ clean_name ++ kml_line_open
  ++ coords_str base_point ++ py " " ++ coords_str target_point ++ kml_tail.

(** *** The directories

    [base_kml/base.kml] is absent or a file; [input_points_kml] is absent or
    a listing of named files; [output_paths] maps the names of the files in
    it to their contents, and [open_raises] tells the names under which it
    refuses to open a file for writing (a name longer than the file system
    allows, for instance). *)

Record world := {
  base_kml : option xml_file;
  input_points_kml : option (list (pystr * xml_file));
  output_paths : gmap pystr pystr;
  open_raises : pystr -> bool
}.

(** *** [get_base_point] *)

Definition get_base_point (w : world) : outcome point :=
  match base_kml w with
  | None => Raise FileNotFoundError
  | Some base_kml_path =>
      base_point ← parse_kml_point base_kml_path;
      match base_point with
      | None => Raise ValueError
      | Some p => Return p
      end
  end.

(** *** [get_destination_points] *)

Record dest_point := {
  dp_filename : pystr;
  dp_name : pystr;
  dp_coordinates : point;
  dp_table_attribute : option pystr;
  dp_kml_path : pystr
}.

Definition points_of_file (entry : pystr * xml_file) : list dest_point :=
  let '(kml_file, content) := entry in
  map (fun point_data =>
         {| dp_filename := stem kml_file;
            dp_name := pd_name point_data;
            dp_coordinates := pd_coordinates point_data;
            dp_table_attribute := pd_table_attribute point_data;
            dp_kml_path := kml_file |})
      (parse_all_kml_points content).

Definition get_destination_points (w : world) : list dest_point :=
  match input_points_kml w with
  | None => []
  | Some listing => flat_map points_of_file (sorted (glob_kml listing))
  end.

(** *** [process_all_points] *)

Record run_state := {
  files : gmap pystr pystr;      (* the output directory *)
  written : list pystr           (* the names of the files opened by [open(_, 'w')], in order *)
}.

(** The [with open(output_file, 'w', encoding='utf-8') as f: f.write(...)]
    statement: [open] raises [OSError] under a name the directory refuses and
    leaves the directory as it is; writing to the open file is taken to
    succeed. *)
Definition write_file (raises : pystr -> bool) (name content : pystr)
  (st : run_state) : run_state * outcome unit :=
  if raises name then (st, Raise OSError)
  else ({| files := <[name := content]> (files st);
           written := written st ++ [name] |}, Return tt).

(** [if point_data['table_attribute']]: neither [None] nor empty. *)
Definition truthy (a : option pystr) : option pystr :=
  match a with
  | Some (c :: t) => Some (c :: t)
  | _ => None
  end.

Definition mission_filename (i : nat) (table_attribute : option pystr) : pystr :=
  let file_number := format_03d i in
  let filename_parts :=
    match truthy table_attribute with
    | Some a => [file_number; sanitize a]
    | None => [file_number]
    end in
  join (py "_") filename_parts ++ py ".kml".

(** The loop over [enumerate(destination_points, 1)]: an exception ends it,
    and what was written before stays. *)
Fixpoint mission_loop (raises : pystr -> bool) (base_point : point)
  (ps : list (nat * dest_point)) (st : run_state) : run_state * outcome unit :=
  match ps with
  | [] => (st, Return tt)
  | (i, point_data) :: ps' =>
      let kml_content :=
        create_dji_mission_kml base_point (dp_coordinates point_data)
                               (dp_name point_data) in
      let filename := mission_filename i (dp_table_attribute point_data) in
      match write_file raises filename kml_content st with
      | (st', Return _) => mission_loop raises base_point ps' st'
      | (st', Raise e) => (st', Raise e)
      end
  end.

Definition process_try (w : world) (st : run_state) : run_state * outcome unit :=
  match get_base_point w with
  | Raise e => (st, Raise e)
  | Return base_point =>
      let destination_points := get_destination_points w in
      match destination_points with
      | [] => (st, Return tt)
      | _ =>
          mission_loop (open_raises w) base_point
                       (enumerate_from 1 destination_points) st
      end
  end.

(** The [except Exception] clause of [process_all_points] calls
    [sys.exit(1)]. *)
Definition process_all_points (w : world) : run_state * outcome unit :=
  let '(st, r) := process_try w {| files := output_paths w; written := [] |} in
  (st, try_except r (fun _ => Raise (SystemExit 1))).

(** The exit status of the process running [main]. *)
Definition exit_status (r : outcome unit) : nat :=
  match r with
  | Return _ => 0
  | Raise (SystemExit c) => c
  | Raise _ => 1
  end.

End Converter.

(** ** Specification-level sanitization *)
Section SanitizeSpec.
Context {rt : PyRuntime}.

Definition spec_allowed (c : N) : bool :=
  isalnum c || (c =? ch "_")%N || (c =? ch "-")%N || isspace c.

Definition spec_replace (c : N) : N := if spec_allowed c then c else ch "_".

Fixpoint spec_collapse (s : pystr) : pystr :=
  match s with
  | [] => []
  | c :: s' =>
      if isspace c then
        match s' with
        | c' :: _ => if isspace c' then spec_collapse s' else ch "_" :: spec_collapse s'
        | [] => [ch "_"]
        end
      else c :: spec_collapse s'
  end.

Definition spec_sanitize (name : pystr) : pystr :=
  spec_collapse (strip (map spec_replace name)).

(** The characters a sanitized name is made of. *)
Definition clean_char (c : N) : bool :=
  isalnum c || (c =? ch "_")%N || (c =? ch "-")%N.
End SanitizeSpec.

(** ** What the patterns denote

    [Matches pat x]: the pattern can consume exactly [x]. *)
Inductive Matches : list item -> pystr -> Prop :=
  | Matches_nil : Matches [] []
  | Matches_chr p c pat x :
      p c = true -> Matches pat x -> Matches (Chr p :: pat) (c :: x)
  | Matches_starG p pat y x :
      Forall (fun c => p c = true) y -> Matches pat x ->
      Matches (StarG p :: pat) (y ++ x)
  | Matches_starL p pat y x :
      Forall (fun c => p c = true) y -> Matches pat x ->
      Matches (StarL p :: pat) (y ++ x)
  | Matches_open pat x : Matches pat x -> Matches (GOpen :: pat) x
  | Matches_close pat x : Matches pat x -> Matches (GClose :: pat) x.

(** [x] spells the lower-case word [lit] up to case. *)
Definition ci_eq (lit : string) (x : pystr) : Prop :=
  Forall2 (fun l c => ci_char l c = true) (py lit) x.

Definition no_gt (x : pystr) : Prop := Forall (fun c => c <> ch ">") x.

(** The texts in which [table_pattern] occurs: somewhere a tag that begins
    with [<tr] holds the word [background] before its [>], and somewhere
    after that tag, in the same row or in a later one, a tag that begins
    with [<td] is followed by [</td>]. *)
Definition row_tag_then_cell (html : pystr) : Prop :=
  exists pre tr a bg b c td d cell close post,
    html = pre ++ tr ++ a ++ bg ++ b ++ [ch ">"] ++ c ++ td ++ d ++ [ch ">"]
               ++ cell ++ close ++ post
    /\ ci_eq "<tr" tr /\ no_gt a /\ ci_eq "background" bg /\ no_gt b
    /\ ci_eq "<td" td /\ no_gt d /\ ci_eq "</td>" close.

(** The cell found by [table_pattern] is blank once trimmed and freed of
    its tags. *)
Definition cell_text_blank (html : pystr) : Prop :=
  exists m, re_search table_pattern html = Some m
    /\ strip (re_sub tag_pattern [] (strip (group1 m))) = [].

(** ** Vocabulary for the claims about the marker parser *)
Section ParserVocabulary.
Context {rt : PyRuntime}.

(** The components of the coordinate text of a node, if it has a text. *)
Definition coords_of (e : element) : option (list pystr) :=
  (fun t => split (ch ",") (strip t)) <$> text_of (find_kml "coordinates" e).

(** Fewer than two comma-separated components, or no coordinate text at
    all. *)
Definition short_coordinates (e : element) : Prop :=
  match coords_of e with
  | Some coords => length coords < 2
  | None => True
  end.

(** At least two components, and one of those the code converts (the first
    three) is not a number. *)
Definition bad_number (e : element) : Prop :=
  exists coords k s,
    coords_of e = Some coords /\ 2 <= length coords
    /\ k < 3 /\ coords !! k = Some s /\ float_of_str s = None.

(** What one coordinates node yields: a point when its text has at least
    two components and the converted ones are numbers. *)
Definition yield (c : element) : option point :=
  match text_of (Some c) with
  | Some t =>
      let coords := split (ch ",") (strip t) in
      if decide (2 <= length coords) then
        match floats_of_coords coords with
        | Return p => Some p
        | Raise _ => None
        end
      else None
  | None => None
  end.

End ParserVocabulary.

(** ** Sample documents *)

Definition el (t txt : string) (cs : list element) : element :=
  Element (py t) (match txt with EmptyString => None | _ => Some (py txt) end) cs.

Definition marker (name coords desc : string) : element :=
  el "Placemark" ""
     [el "name" name []; el "description" desc [];
      el "Point" "" [el "coordinates" coords []]].

Definition document (markers : list element) : element :=
  el "kml" "" [el "Document" "" markers].

(** An annotation whose header row holds the label [Tower A]. *)
Definition tower_table : string :=
  "<table><tr style='background-color:#ccc'><td><b>Tower A</b></td></tr></table>".

(** A directory that refuses the names of more than 255 characters. *)
Definition name_too_long (name : pystr) : bool := 255 <? length name.

Definition world_of (base : option xml_file) (listing : list (pystr * xml_file))
  : world :=
  {| base_kml := base; input_points_kml := Some listing; output_paths := ∅;
     open_raises := name_too_long |}.

(** A document whose first marker has one component and whose second one is
    well formed. *)
Definition short_then_good : element :=
  document [marker "" "5" ""; marker "" "1,2" ""].

(** A document whose first marker is one word that is not a number. *)
Definition word_then_good : element :=
  document [marker "" "abc" ""; marker "" "1,2" ""].

Definition good_bad_good : element :=
  document [marker "A" "1,2" ""; marker "B" "3,x" ""; marker "C" "5,6" ""].

(** ** Reading a file name back *)

(** The number that a digit string denotes, least significant digit
    first. *)
Fixpoint value_le (ds : pystr) : N :=
  match ds with
  | [] => 0
  | d :: ds' => (d - 48) + 10 * value_le ds'
  end.

Definition decimal_value (s : pystr) : N := value_le (rev s).

Fixpoint takewhile (p : N -> bool) (s : pystr) : pystr :=
  match s with
  | [] => []
  | c :: s' => if p c then c :: takewhile p s' else []
  end.

(** The number at the head of a file name. *)
Definition file_index (name : pystr) : N :=
  decimal_value (takewhile isdigit_ascii name).

(** Two markers that carry the same label. *)
Definition twin_towers : element :=
  document [marker "North" "1,2" tower_table; marker "South" "3,4" tower_table].

(** ** Vocabulary for the claims about the run *)

(** The names before the first one that cannot be opened. *)
Fixpoint opened (raises : pystr -> bool) (names : list pystr) : list pystr :=
  match names with
  | [] => []
  | n :: names' => if raises n then [] else n :: opened raises names'
  end.

Section RunVocabulary.
Context {rt : PyRuntime}.

(** A label is never the empty string. *)
Definition labelled (a : option pystr) : Prop := a <> Some [].

Definition filename_of (entry : nat * dest_point) : pystr :=
  mission_filename (fst entry) (dp_table_attribute (snd entry)).

Definition content_of (base_point : point) (p : dest_point) : pystr :=
  create_dji_mission_kml base_point (dp_coordinates p) (dp_name p).

(** The names the run computes for the destination points, in order. *)
Definition mission_names (w : world) : list pystr :=
  map filename_of (enumerate_from 1 (get_destination_points w)).

End RunVocabulary.

(** One base point and two documents, listed out of order next to a file
    that is not a marker document. *)
Definition sample_base : xml_file := Parsed (marker "Base" "-122,47,0" "").

Definition sample_world : world :=
  world_of (Some sample_base)
    [(py "b.kml", Parsed twin_towers); (py "a.kml", Parsed short_then_good);
     (py "notes.txt", Unparsable)].

Definition twin_world : world :=
  world_of (Some sample_base) [(py "towers.kml", Parsed twin_towers)].



(** A point of the integer runtime. *)
Definition int_point (x y z : Z) : point (rt := int_runtime) := (x, y, z).

Definition int_dest (file name : string) (p : point (rt := int_runtime))
  (label : option pystr) : dest_point (rt := int_runtime) :=
  {| dp_filename := stem (py file); dp_name := py name; dp_coordinates := p;
     dp_table_attribute := label; dp_kml_path := py file |}.

(** ** Reading a rendered document

    The observations a consumer makes on the text of a mission document:
    where a tag occurs, what stands between two tags, and the
    whitespace-separated items of a text. *)

(** [s.startswith(pat)] *)
Fixpoint startswith (pat s : pystr) : bool :=
  match pat, s with
  | [], _ => true
  | _ :: _, [] => false
  | p :: pat', c :: s' => (p =? c)%N && startswith pat' s'
  end.

(** [s.partition(sep)], when [sep] occurs: the text before its first
    occurrence and the text after it. *)
Fixpoint partition (sep s : pystr) : option (pystr * pystr) :=
  if startswith sep s then Some ([], drop (length sep) s)
  else match s with
       | [] => None
       | c :: s' => (fun ba => (c :: fst ba, snd ba)) <$> partition sep s'
       end.

(** The number of positions at which [pat] occurs. *)
Fixpoint occurrences (pat s : pystr) : nat :=
  (if startswith pat s then 1 else 0)
  + match s with
    | [] => 0
    | _ :: s' => occurrences pat s'
    end.

(** The text between the first [opening] and the next [closing]. *)
Definition between (opening closing s : pystr) : option pystr :=
  match partition opening s with
  | Some (_, after) => fst <$> partition closing after
  | None => None
  end.

(** [s.split()] *)
Fixpoint words (s : pystr) : list pystr :=
  match s with
  | [] => []
  | c :: s' =>
      if isspace c then words s'
      else match s' with
           | c' :: _ =>
               if isspace c' then [c] :: words s'
               else match words s' with
                    | w :: ws => (c :: w) :: ws
                    | [] => [[c]]
                    end
           | [] => [[c]]
           end
  end.

(** The name of the document, the name of its feature and the vertices of
    its line. *)
Definition document_title (doc : pystr) : option pystr :=
  between (py "<name>") (py "</name>") doc.

Definition feature_name (doc : pystr) : option pystr :=
  match partition (py "<Placemark>") doc with
  | Some (_, after) => between (py "<name>") (py "</name>") after
  | None => None
  end.

Definition line_vertices (doc : pystr) : option (list pystr) :=
  words <$> between (py "<coordinates>") (py "</coordinates>") doc.

(** Text without whitespace and without [<], as the formatting of a number
    is. *)
Definition plain_text (s : pystr) : bool :=
  forallb (fun c => negb (isspace c) && negb (c =? ch "<")%N) s.

(** [pat] and [s] agree as far as both go. *)
Fixpoint compat (pat s : pystr) : bool :=
  match pat, s with
  | [], _ => true
  | _, [] => true
  | p :: pat', c :: s' => (p =? c)%N && compat pat' s'
  end.

(** No occurrence of [pat] can start inside [x], whatever follows [x]. *)
Fixpoint no_start (pat x : pystr) : bool :=
  match x with
  | [] => true
  | _ :: x' => negb (compat pat x) && no_start pat x'
  end.

(** The parts of a constant text around the first occurrence of a tag. *)
Definition piece_before (pat s : pystr) : pystr :=
  match partition pat s with
  | Some (b, _) => b
  | None => s
  end.

Definition piece_after (pat s : pystr) : pystr :=
  match partition pat s with
  | Some (_, a) => a
  | None => []
  end.

(** ** Vocabulary for the relation between the two parsers *)
Section TwoParsers.
Context {rt : PyRuntime}.

(** Whether the body of [parse_kml_point] raises on a node. *)
Definition marker_raises (m : element) : bool :=
  match parse_kml_point_try (Parsed m) with
  | Raise _ => true
  | Return _ => false
  end.

(** The markers before the first one on which it raises. *)
Fixpoint until_raise (ms : list element) : list element :=
  match ms with
  | [] => []
  | m :: ms' => if marker_raises m then [] else m :: until_raise ms'
  end.

(** What single-point mode returns on a node taken as a document. *)
Definition single_point (m : element) : option point :=
  match parse_kml_point (Parsed m) with
  | Return o => o
  | Raise _ => None
  end.

Definition default_name (i : nat) : pystr := py "Point_" ++ str_of_nat (i + 1).

End TwoParsers.

(** ** Vocabulary for the claims about the input directory *)

(** Order of two directory entries: by name. *)
Definition name_le {A : Type} (x y : pystr * A) : Prop :=
  pystr_leb (fst x) (fst y) = true.

(** Order of two destination points: by the name of their file. *)
Definition path_le {rt : PyRuntime} (p q : dest_point) : Prop :=
  pystr_leb (dp_kml_path p) (dp_kml_path q) = true.

(** The same directories with another listing of the input directory. *)
Definition with_listing (w : world) (listing : list (pystr * xml_file)) : world :=
  {| base_kml := base_kml w; input_points_kml := Some listing;
     output_paths := output_paths w; open_raises := open_raises w |}.

(** ** Vocabulary for the claims about the extractor *)

(** The tests [ps] and the text [s] agree as far as both go. *)
Fixpoint compat_chr (ps : list (N -> bool)) (s : pystr) : bool :=
  match ps, s with
  | [], _ => true
  | _, [] => true
  | p :: ps', c :: s' => p c && compat_chr ps' s'
  end.

Fixpoint no_start_chr (ps : list (N -> bool)) (x : pystr) : bool :=
  match x with
  | [] => true
  | _ :: x' => negb (compat_chr ps x) && no_start_chr ps x'
  end.

(** Nothing in [x] spells the word [lit], or a beginning of it cut by the
    end of [x], up to case. *)
Definition cannot_start (lit : string) (x : pystr) : Prop :=
  no_start_chr (map ci_char (py lit)) x = true.

(** [s if s else None] *)
Definition some_nonempty (s : pystr) : option pystr :=
  match s with
  | [] => None
  | _ => Some s
  end.

(** The end of [table_pattern], from the lazy group on. *)
Definition after_td_pattern : list item :=
  StarL any_char :: GClose :: map Chr (map ci_char (py "</td>")) ++ [].

(** * Properties *)

Section SanitizeProofs.
Context {rt : PyRuntime}.

Lemma re_sub_from_class p repl s :
  re_sub_from [Chr p] repl 0 s = flat_map (fun c => if p c then repl else [c]) s.
Proof.
  induction s as [|c s IH]; [reflexivity|].
  cbn [re_sub_from flat_map]. unfold match_at. cbn [match_here].
  destruct (p c); cbn [rest length].
  - replace (S (length s) - length s) with 1 by lia. by rewrite IH.
  - by rewrite IH.
Qed.

Lemma disallowed_spec c : disallowed c = negb (spec_allowed c).
Proof.
  unfold disallowed, spec_allowed, isword.
  destruct (isalnum c), (c =? ch "_")%N, (c =? ch "-")%N, (isspace c); reflexivity.
Qed.

Lemma re_sub_disallowed s :
  re_sub [Chr disallowed] (py "_") s = map spec_replace s.
Proof.
  unfold re_sub. rewrite re_sub_from_class.
  induction s as [|c s IH]; [reflexivity|].
  cbn [flat_map map]. rewrite IH. unfold spec_replace.
  rewrite disallowed_spec. by destruct (spec_allowed c).
Qed.

Lemma star_greedy_end (p : N -> bool) (s gs g1 : pystr) :
  match_here [StarG p] s gs g1 = Some {| group1 := g1; rest := dropwhile p s |}.
Proof.
  induction s as [|c s IH]; [reflexivity|].
  cbn [dropwhile]. cbn in IH |- *. destruct (p c); [by rewrite IH | reflexivity].
Qed.

Lemma match_ws_run c s :
  match_at ws_run (c :: s) =
  if isspace c then Some {| group1 := []; rest := dropwhile isspace s |} else None.
Proof.
  unfold match_at, ws_run.
  change (match_here [Chr isspace; StarG isspace] (c :: s) [] [])
    with (if isspace c then match_here [StarG isspace] s [] [] else None).
  destruct (isspace c); [apply star_greedy_end | reflexivity].
Qed.

Lemma length_dropwhile p s : length (dropwhile p s) <= length s.
Proof.
  induction s as [|c s IH]; cbn [dropwhile length]; [lia|].
  destruct (p c); cbn [length]; lia.
Qed.

Lemma re_sub_from_skip pat repl p s :
  re_sub_from pat repl (length s - length (dropwhile p s)) s =
  re_sub_from pat repl 0 (dropwhile p s).
Proof.
  induction s as [|c s IH]; [reflexivity|].
  cbn [dropwhile]. destruct (p c).
  - pose proof (length_dropwhile p s).
    replace (length (c :: s) - length (dropwhile p s))
      with (S (length s - length (dropwhile p s))) by (cbn [length]; lia).
    cbn [re_sub_from]. apply IH.
  - by rewrite Nat.sub_diag.
Qed.

Lemma spec_collapse_cons c s :
  spec_collapse (c :: s) =
  if isspace c then
    match s with
    | c' :: _ => if isspace c' then spec_collapse s else ch "_" :: spec_collapse s
    | [] => [ch "_"]
    end
  else c :: spec_collapse s.
Proof. reflexivity. Qed.

Lemma spec_collapse_space c s :
  isspace c = true ->
  spec_collapse (c :: s) = ch "_" :: spec_collapse (dropwhile isspace s).
Proof.
  revert c. induction s as [|c' s IH]; intros c Hc.
  - rewrite spec_collapse_cons, Hc. reflexivity.
  - rewrite (spec_collapse_cons c), Hc. cbn [dropwhile].
    destruct (isspace c') eqn:Hc'; [by apply IH | reflexivity].
Qed.

Lemma re_sub_ws_run_aux n : forall s, length s <= n ->
  re_sub_from ws_run (py "_") 0 s = spec_collapse s.
Proof.
  induction n as [|n IH]; intros [|c s] Hlen; try reflexivity; cbn [length] in Hlen; [lia|].
  cbn [re_sub_from]. rewrite match_ws_run.
  destruct (isspace c) eqn:Hc.
  - cbn [rest]. pose proof (length_dropwhile isspace s).
    replace (length (c :: s) - length (dropwhile isspace s))
      with (S (length s - length (dropwhile isspace s))) by (cbn [length]; lia).
    rewrite re_sub_from_skip, IH by lia.
    by rewrite spec_collapse_space.
  - rewrite IH by lia. by rewrite spec_collapse_cons, Hc.
Qed.

Lemma re_sub_ws_run s : re_sub ws_run (py "_") s = spec_collapse s.
Proof. unfold re_sub. by apply (re_sub_ws_run_aux (length s)). Qed.

Lemma sanitize_spec name : sanitize name = spec_sanitize name.
Proof.
  unfold sanitize, spec_sanitize. by rewrite re_sub_disallowed, re_sub_ws_run.
Qed.

Lemma Forall_dropwhile (P : N -> Prop) p s :
  Forall P s -> Forall P (dropwhile p s).
Proof.
  induction 1 as [|c s Hc Hs IH]; cbn [dropwhile]; [constructor|].
  destruct (p c); [exact IH | by constructor].
Qed.

Lemma Forall_strip (P : N -> Prop) s : Forall P s -> Forall P (strip s).
Proof.
  intros H. unfold strip, rstrip, lstrip.
  apply Forall_rev, Forall_dropwhile, Forall_rev, Forall_dropwhile, H.
Qed.

Lemma spec_replace_allowed c : spec_allowed (spec_replace c) = true.
Proof.
  unfold spec_replace. destruct (spec_allowed c) eqn:H; [exact H|].
  unfold spec_allowed. rewrite N.eqb_refl. by rewrite orb_true_r.
Qed.

Lemma spec_collapse_clean s :
  Forall (fun c => spec_allowed c = true) s ->
  Forall (fun c => clean_char c = true /\ isspace c = false) (spec_collapse s).
Proof.
  assert (Hu : clean_char (ch "_") = true /\ isspace (ch "_") = false).
  { split; [|reflexivity]. unfold clean_char. rewrite N.eqb_refl.
    by rewrite orb_true_r. }
  induction 1 as [|c s Hc Hs IH]; [constructor|].
  rewrite spec_collapse_cons. destruct (isspace c) eqn:Hsp.
  - destruct s as [|c' s']; [by repeat constructor|].
    destruct (isspace c'); [exact IH | by constructor].
  - constructor; [|exact IH]. split; [|exact Hsp].
    unfold spec_allowed in Hc. rewrite Hsp, orb_false_r in Hc. exact Hc.
Qed.

Lemma sanitize_clean name :
  Forall (fun c => clean_char c = true /\ isspace c = false) (sanitize name).
Proof.
  rewrite sanitize_spec. apply spec_collapse_clean, Forall_strip.
  induction name as [|c name IH]; cbn [map]; constructor;
    [apply spec_replace_allowed | exact IH].
Qed.

(** C3. Sanitization replaces every character that is not alphanumeric,
    underscore, hyphen or whitespace by an underscore, then trims and turns
    every whitespace run into one underscore, so that the result is made of
    alphanumerics, underscores and hyphens only; ["Tower #3 (north)"] becomes
    ["Tower__3__north_"]. *)
Theorem C3_sanitize_rule :
  (forall name, sanitize name = spec_collapse (strip (map spec_replace name)))
  /\ (forall name,
        Forall (fun c => clean_char c = true /\ isspace c = false) (sanitize name))
  /\ sanitize (py "Tower #3 (north)") = py "Tower__3__north_".
Proof.
  split; [exact sanitize_spec|]. split; [exact sanitize_clean|].
  vm_compute. reflexivity.
Qed.

End SanitizeProofs.

Section RegexProofs.

Lemma match_here_starG_cons p pat c s gs g1 :
  match_here (StarG p :: pat) (c :: s) gs g1 =
  if p c then
    match match_here (StarG p :: pat) s gs g1 with
    | Some r => Some r
    | None => match_here pat (c :: s) gs g1
    end
  else match_here pat (c :: s) gs g1.
Proof. reflexivity. Qed.

Lemma match_here_starG_nil p pat gs g1 :
  match_here (StarG p :: pat) [] gs g1 = match_here pat [] gs g1.
Proof. reflexivity. Qed.

Lemma match_here_starL_eq p pat s gs g1 :
  match_here (StarL p :: pat) s gs g1 =
  match match_here pat s gs g1 with
  | Some r => Some r
  | None =>
      match s with
      | c :: s' => if p c then match_here (StarL p :: pat) s' gs g1 else None
      | [] => None
      end
  end.
Proof. destruct s; reflexivity. Qed.

(** Whatever the matcher accepts is denoted by the pattern. *)
Lemma match_here_sound pat : forall s gs g1 r,
  match_here pat s gs g1 = Some r ->
  exists x, s = x ++ rest r /\ Matches pat x.
Proof.
  induction pat as [|it pat IH]; intros s gs g1 r H.
  - injection H as <-. exists []. split; [reflexivity | constructor].
  - destruct it as [p|p|p| |].
    + destruct s as [|c s]; [discriminate|]. cbn [match_here] in H.
      destruct (p c) eqn:Hp; [|discriminate].
      destruct (IH _ _ _ _ H) as (x & -> & Hx).
      exists (c :: x). split; [reflexivity | by constructor].
    + assert (exists y x, s = y ++ x ++ rest r
                /\ Forall (fun c => p c = true) y /\ Matches pat x)
        as (y & x & -> & Hy & Hx).
      { induction s as [|c s IHs].
        - rewrite match_here_starG_nil in H.
          destruct (IH _ _ _ _ H) as (x & Hs & Hx).
          exists [], x. by repeat split.
        - rewrite match_here_starG_cons in H.
          destruct (p c) eqn:Hp.
          + destruct (match_here (StarG p :: pat) s gs g1) as [r'|] eqn:Hs.
            * destruct (IHs H) as (y & x & -> & Hy & Hx).
              exists (c :: y), x. repeat split; [by constructor | exact Hx].
            * destruct (IH _ _ _ _ H) as (x & Hs' & Hx).
              exists [], x. by repeat split.
          + destruct (IH _ _ _ _ H) as (x & Hs' & Hx).
            exists [], x. by repeat split. }
      exists (y ++ x). split; [by rewrite <- app_assoc | by constructor].
    + assert (exists y x, s = y ++ x ++ rest r
                /\ Forall (fun c => p c = true) y /\ Matches pat x)
        as (y & x & -> & Hy & Hx).
      { induction s as [|c s IHs]; rewrite match_here_starL_eq in H.
        - destruct (match_here pat [] gs g1) as [r'|] eqn:Hs; [|discriminate].
          injection H as ->. destruct (IH _ _ _ _ Hs) as (x & Hs' & Hx).
          exists [], x. by repeat split.
        - destruct (match_here pat (c :: s) gs g1) as [r'|] eqn:Hs.
          + injection H as ->. destruct (IH _ _ _ _ Hs) as (x & Hs' & Hx).
            exists [], x. by repeat split.
          + destruct (p c) eqn:Hp; [|discriminate].
            destruct (IHs H) as (y & x & -> & Hy & Hx).
            exists (c :: y), x. repeat split; [by constructor | exact Hx]. }
      exists (y ++ x). split; [by rewrite <- app_assoc | by constructor].
    + cbn [match_here] in H. destruct (IH _ _ _ _ H) as (x & -> & Hx).
      exists x. split; [reflexivity | by constructor].
    + cbn [match_here] in H. destruct (IH _ _ _ _ H) as (x & -> & Hx).
      exists x. split; [reflexivity | by constructor].
Qed.

(** Whatever the pattern denotes makes the matcher succeed. *)
Lemma match_here_complete pat x : Matches pat x ->
  forall tl gs g1, is_Some (match_here pat (x ++ tl) gs g1).
Proof.
  induction 1 as [|p c pat x Hp Hx IH|p pat y x Hy Hx IH|p pat y x Hy Hx IH
                  |pat x Hx IH|pat x Hx IH]; intros tl gs g1.
  - by eexists.
  - cbn [app match_here]. rewrite Hp. apply IH.
  - rewrite <- app_assoc. induction Hy as [|c y Hc Hy IHy].
    + cbn [app]. destruct (x ++ tl) as [|c s] eqn:E.
      * rewrite match_here_starG_nil, <- E. apply IH.
      * rewrite match_here_starG_cons.
        destruct (p c); [|rewrite <- E; apply IH].
        destruct (match_here (StarG p :: pat) s gs g1); [by eexists|].
        rewrite <- E. apply IH.
    + cbn [app]. rewrite match_here_starG_cons, Hc.
      destruct IHy as [r ->]. by eexists.
  - rewrite <- app_assoc. induction Hy as [|c y Hc Hy IHy];
      rewrite match_here_starL_eq.
    + cbn [app]. destruct (IH tl gs g1) as [r ->]. by eexists.
    + cbn [app].
      destruct (match_here pat (c :: y ++ x ++ tl) gs g1); [by eexists|].
      rewrite Hc. apply IHy.
  - cbn [match_here]. apply IH.
  - cbn [match_here]. apply IH.
Qed.

Lemma re_search_sound pat s r :
  re_search pat s = Some r ->
  exists pre x, s = pre ++ x ++ rest r /\ Matches pat x.
Proof.
  induction s as [|c s IH]; cbn [re_search]; unfold match_at.
  - destruct (match_here pat [] [] []) as [r'|] eqn:E; [|discriminate].
    intros [= ->]. destruct (match_here_sound _ _ _ _ _ E) as (x & Hs & Hx).
    exists [], x. by split.
  - destruct (match_here pat (c :: s) [] []) as [r'|] eqn:E.
    + intros [= ->]. destruct (match_here_sound _ _ _ _ _ E) as (x & Hs & Hx).
      exists [], x. by split.
    + intros H. destruct (IH H) as (pre & x & -> & Hx).
      exists (c :: pre), x. by split.
Qed.

Lemma re_search_complete pat pre x post :
  Matches pat x -> is_Some (re_search pat (pre ++ x ++ post)).
Proof.
  intros Hx. induction pre as [|c pre IH].
  - cbn [app]. destruct (match_here_complete _ _ Hx post [] []) as [r Hr].
    destruct (x ++ post); cbn [re_search]; unfold match_at; rewrite Hr; by eexists.
  - cbn [app re_search]. destruct (match_at pat (c :: pre ++ x ++ post)); [by eexists|].
    exact IH.
Qed.

End RegexProofs.

Section TablePattern.

Lemma Matches_chr_iff p pat x :
  Matches (Chr p :: pat) x <-> exists c x', x = c :: x' /\ p c = true /\ Matches pat x'.
Proof.
  split.
  - inversion 1; subst. by eexists _, _.
  - intros (c & x' & -> & Hc & Hx). by constructor.
Qed.

Lemma Matches_starG_iff p pat x :
  Matches (StarG p :: pat) x <->
  exists y x', x = y ++ x' /\ Forall (fun c => p c = true) y /\ Matches pat x'.
Proof.
  split.
  - inversion 1; subst. by eexists _, _.
  - intros (y & x' & -> & Hy & Hx). by constructor.
Qed.

Lemma Matches_starL_iff p pat x :
  Matches (StarL p :: pat) x <->
  exists y x', x = y ++ x' /\ Forall (fun c => p c = true) y /\ Matches pat x'.
Proof.
  split.
  - inversion 1; subst. by eexists _, _.
  - intros (y & x' & -> & Hy & Hx). by constructor.
Qed.

Lemma Matches_open_iff pat x : Matches (GOpen :: pat) x <-> Matches pat x.
Proof. split; [by inversion 1 | by constructor]. Qed.

Lemma Matches_close_iff pat x : Matches (GClose :: pat) x <-> Matches pat x.
Proof. split; [by inversion 1 | by constructor]. Qed.

Lemma Matches_nil_iff x : Matches [] x <-> x = [].
Proof. split; [by inversion 1 | intros ->; constructor]. Qed.

Lemma Matches_chars (l : pystr) pat x :
  Matches (map (fun a => Chr (ci_char a)) l ++ pat) x <->
  exists w x', x = w ++ x'
    /\ Forall2 (fun a c => ci_char a c = true) l w /\ Matches pat x'.
Proof.
  revert x. induction l as [|a l IH]; intros x; cbn [map app].
  - split.
    + intros H. exists [], x. repeat split; [constructor | exact H].
    + intros (w & x' & -> & Hw & Hx). by inversion Hw; subst.
  - rewrite Matches_chr_iff. split.
    + intros (c & x1 & -> & Hc & H). apply IH in H as (w & x' & -> & Hw & Hx).
      exists (c :: w), x'. repeat split; [by constructor | exact Hx].
    + intros (w & x' & -> & Hw & Hx). inversion Hw as [|? c ? w' Hc Hw']; subst.
      exists c, (w' ++ x'). repeat split; [exact Hc|]. apply IH. by eexists _, _.
Qed.

Lemma Matches_ci_lit lit pat x :
  Matches (ci_lit lit ++ pat) x <->
  exists w x', x = w ++ x' /\ ci_eq lit w /\ Matches pat x'.
Proof. apply Matches_chars. Qed.

Lemma no_gt_iff x : Forall (fun c => not_char (ch ">") c = true) x <-> no_gt x.
Proof.
  unfold no_gt, not_char. apply Forall_iff. intros c.
  rewrite negb_true_iff, N.eqb_neq. reflexivity.
Qed.

Lemma is_gt_iff c : is_char (ch ">") c = true <-> c = ch ">".
Proof. unfold is_char. apply N.eqb_eq. Qed.

Lemma Forall_any x : Forall (fun c => any_char c = true) x.
Proof. induction x; by constructor. Qed.

Local Ltac piece tac :=
  eexists _, _; split; [reflexivity | split; [tac |]].

(** The words matched by [table_pattern]. *)
Lemma Matches_table_pattern x :
  Matches table_pattern x <->
  exists tr a bg b c td d cell close,
    x = tr ++ a ++ bg ++ b ++ [ch ">"] ++ c ++ td ++ d ++ [ch ">"] ++ cell ++ close
    /\ ci_eq "<tr" tr /\ no_gt a /\ ci_eq "background" bg /\ no_gt b
    /\ ci_eq "<td" td /\ no_gt d /\ ci_eq "</td>" close.
Proof.
  unfold table_pattern. split.
  - intros H.
    apply Matches_ci_lit in H as (tr & x1 & -> & Htr & H). cbn [app] in H.
    apply Matches_starG_iff in H as (a & x2 & -> & Ha & H).
    apply Matches_ci_lit in H as (bg & x3 & -> & Hbg & H). cbn [app] in H.
    apply Matches_starG_iff in H as (b & x4 & -> & Hb & H).
    apply Matches_chr_iff in H as (g1 & x5 & -> & Hg1 & H).
    apply Matches_starL_iff in H as (c & x6 & -> & _ & H).
    apply Matches_ci_lit in H as (td & x7 & -> & Htd & H). cbn [app] in H.
    apply Matches_starG_iff in H as (d & x8 & -> & Hd & H).
    apply Matches_chr_iff in H as (g2 & x9 & -> & Hg2 & H).
    apply (proj1 (Matches_open_iff _ _)) in H.
    apply Matches_starL_iff in H as (cell & x10 & -> & _ & H).
    apply (proj1 (Matches_close_iff _ _)) in H.
    rewrite <- (app_nil_r (ci_lit "</td>")) in H.
    apply Matches_ci_lit in H as (close & x11 & -> & Hclose & H).
    apply Matches_nil_iff in H as ->.
    apply is_gt_iff in Hg1 as ->. apply is_gt_iff in Hg2 as ->.
    exists tr, a, bg, b, c, td, d, cell, close.
    rewrite app_nil_r. repeat split; try assumption; by apply no_gt_iff.
  - intros (tr & a & bg & b & c & td & d & cell & close & -> & Htr & Ha & Hbg & Hb
            & Htd & Hd & Hclose).
    apply Matches_ci_lit. piece ltac:(exact Htr). cbn [app].
    apply Matches_starG_iff. piece ltac:(by apply no_gt_iff).
    apply Matches_ci_lit. piece ltac:(exact Hbg). cbn [app].
    apply Matches_starG_iff. piece ltac:(by apply no_gt_iff).
    apply Matches_chr_iff. piece ltac:(by apply is_gt_iff).
    apply Matches_starL_iff. piece ltac:(apply Forall_any).
    apply Matches_ci_lit. piece ltac:(exact Htd). cbn [app].
    apply Matches_starG_iff. piece ltac:(by apply no_gt_iff).
    apply Matches_chr_iff. piece ltac:(by apply is_gt_iff).
    apply (proj2 (Matches_open_iff _ _)), Matches_starL_iff.
    piece ltac:(apply Forall_any).
    apply (proj2 (Matches_close_iff _ _)). rewrite <- (app_nil_r (ci_lit "</td>")).
    apply Matches_ci_lit. exists close, []. rewrite app_nil_r.
    split; [reflexivity | split; [exact Hclose | constructor]].
Qed.

(** [re.search] finds the pattern exactly when such a row exists. *)
Lemma search_table_pattern html :
  is_Some (re_search table_pattern html) <-> row_tag_then_cell html.
Proof.
  split.
  - intros [r Hr]. apply re_search_sound in Hr as (pre & x & -> & Hx).
    apply Matches_table_pattern in Hx
      as (tr & a & bg & b & c & td & d & cell & close & -> & H).
    exists pre, tr, a, bg, b, c, td, d, cell, close, (rest r).
    split; [|exact H]. by rewrite <- !app_assoc.
  - intros (pre & tr & a & bg & b & c & td & d & cell & close & post & -> & H).
    assert (Hm : Matches table_pattern
      (tr ++ a ++ bg ++ b ++ [ch ">"] ++ c ++ td ++ d ++ [ch ">"] ++ cell ++ close)).
    { apply Matches_table_pattern. by exists tr, a, bg, b, c, td, d, cell, close. }
    pose proof (re_search_complete table_pattern pre _ post Hm) as Hs.
    by rewrite <- !app_assoc in Hs.
Qed.

End TablePattern.

Section Extractor.

Lemma extract_try_returns html_text : exists v, extract_try html_text = Return v.
Proof.
  unfold extract_try. destruct html_text; [by eexists|].
  destruct (re_search _ _); by eexists.
Qed.

Lemma extract_eq html_text :
  extract_html_table_attribute_from_text html_text = extract_try html_text.
Proof.
  unfold extract_html_table_attribute_from_text.
  destruct (extract_try_returns html_text) as [v ->]. reflexivity.
Qed.

Lemma extract_not_empty html_text :
  extract_html_table_attribute_from_text html_text <> Return (Some []).
Proof.
  rewrite extract_eq. unfold extract_try. destruct html_text; [discriminate|].
  destruct (re_search _ _); [|discriminate].
  destruct (strip (re_sub _ _ _)); discriminate.
Qed.

(** X17. The attribute extractor always returns, never raises, and never
    returns the empty string; it returns absence when the annotation is
    empty, when its pattern occurs nowhere in the annotation (no tag
    beginning with [<tr] that holds [background] and is followed by a
    [<td ...>] and a [</td>]), and when the captured cell is empty after
    tag stripping and trimming. *)
Theorem X17_extract_absence html_text :
  (exists v, extract_html_table_attribute_from_text html_text = Return v)
  /\ extract_html_table_attribute_from_text html_text <> Return (Some [])
  /\ (html_text = [] \/ ~ row_tag_then_cell html_text \/ cell_text_blank html_text ->
      extract_html_table_attribute_from_text html_text = Return None).
Proof.
  split; [rewrite extract_eq; apply extract_try_returns|].
  split; [apply extract_not_empty|].
  rewrite extract_eq. unfold extract_try.
  intros [-> | [Hrow | (m & Hm & Hblank)]]; [reflexivity | |].
  - destruct html_text; [reflexivity|].
    destruct (re_search _ _) as [m|] eqn:Hm; [|reflexivity].
    exfalso. apply Hrow, search_table_pattern. rewrite Hm. by eexists.
  - destruct html_text; [reflexivity|]. rewrite Hm, Hblank. reflexivity.
Qed.

Lemma X17_extract_absence_witness :
  extract_html_table_attribute_from_text [] = Return None
  /\ extract_html_table_attribute_from_text (py "<p>no table here</p>") = Return None
  /\ extract_html_table_attribute_from_text
       (py "<table><tr style='background:#ccc'><td> <b> </b> </td></tr></table>")
     = Return None.
Proof.
  split; [|split].
  - apply (X17_extract_absence []). left. reflexivity.
  - apply (X17_extract_absence (py "<p>no table here</p>")). right. left.
    intros H. apply search_table_pattern in H. vm_compute in H.
    destruct H as [m H]. discriminate H.
  - apply (X17_extract_absence
             (py "<table><tr style='background:#ccc'><td> <b> </b> </td></tr></table>")).
    right. right. eexists. split; vm_compute; reflexivity.
Defined.

(** C6 (the code at the failing inputs). A marked row that holds no data
    cell does not make the extractor return absence: the lazy [.*?] of the
    pattern runs past the end of the row, and the text of the first [<td>]
    of a later row is returned; likewise a tag that merely begins with
    [<tr] and holds [background] inside another word counts as the marked
    row. *)
Theorem C6_cell_outside_marked_row_returned :
  extract_html_table_attribute_from_text
    (py "<table><tr style='background:#ccc'><th>Site</th></tr><tr><td> Z </td></tr></table>")
  = Return (Some (py "Z"))
  /\ extract_html_table_attribute_from_text
       (py "<track nobackground><p><td>X</td>")
     = Return (Some (py "X")).
Proof. split; vm_compute; reflexivity. Qed.

End Extractor.

Section Parser.
Context {rt : PyRuntime}.

Lemma bind_Return {A B} (a : A) (k : A -> outcome B) : (Return a ≫= k) = k a.
Proof. reflexivity. Qed.

Lemma bind_Raise {A B} e (k : A -> outcome B) : (Raise e ≫= k) = Raise e.
Proof. reflexivity. Qed.

Lemma py_float_Some s f : float_of_str s = Some f -> py_float s = Return f.
Proof. unfold py_float. by intros ->. Qed.

Lemma py_float_None s : float_of_str s = None -> py_float s = Raise ValueError.
Proof. unfold py_float. by intros ->. Qed.

Lemma py_float_raise s e :
  py_float s = Raise e -> e = ValueError /\ float_of_str s = None.
Proof. unfold py_float. destruct (float_of_str s); [discriminate | by intros [= <-]]. Qed.

Lemma floats_of_coords_2 a b lon lat :
  float_of_str a = Some lon -> float_of_str b = Some lat ->
  floats_of_coords [a; b] = Return (lon, lat, float_zero).
Proof.
  intros Ha Hb. unfold floats_of_coords.
  change (default [] ([a; b] !! 0%nat)) with a.
  change (default [] ([a; b] !! 1%nat)) with b.
  rewrite (py_float_Some _ _ Ha), bind_Return, (py_float_Some _ _ Hb), bind_Return.
  destruct (decide _) as [Hn|_]; [cbn [length] in Hn; lia | reflexivity].
Qed.

Lemma floats_of_coords_3 a b c more lon lat alt :
  float_of_str a = Some lon -> float_of_str b = Some lat ->
  float_of_str c = Some alt ->
  floats_of_coords (a :: b :: c :: more) = Return (lon, lat, alt).
Proof.
  intros Ha Hb Hc. unfold floats_of_coords.
  change (default [] ((a :: b :: c :: more) !! 0%nat)) with a.
  change (default [] ((a :: b :: c :: more) !! 1%nat)) with b.
  change (default [] ((a :: b :: c :: more) !! 2%nat)) with c.
  rewrite (py_float_Some _ _ Ha), bind_Return, (py_float_Some _ _ Hb), bind_Return.
  destruct (decide _) as [_|Hn]; [|cbn [length] in Hn; lia].
  by rewrite (py_float_Some _ _ Hc), bind_Return.
Qed.

(** A component among the first three that is not a number makes the
    conversion raise [ValueError]. *)
Lemma floats_of_coords_bad coords k s :
  k < 3 -> coords !! k = Some s -> float_of_str s = None ->
  floats_of_coords coords = Raise ValueError.
Proof.
  intros Hk Hs Hf. unfold floats_of_coords.
  assert (Hlen : k < length coords) by (eapply lookup_lt_Some; exact Hs).
  destruct (py_float (default [] (coords !! 0%nat))) as [lon|e] eqn:E0.
  2:{ rewrite bind_Raise. by apply py_float_raise in E0 as [-> _]. }
  rewrite bind_Return.
  destruct (py_float (default [] (coords !! 1%nat))) as [lat|e] eqn:E1.
  2:{ rewrite bind_Raise. by apply py_float_raise in E1 as [-> _]. }
  rewrite bind_Return.
  destruct k as [|[|[|k]]]; [| |clear Hk|lia].
  - rewrite Hs in E0. cbn in E0.
    rewrite (py_float_None _ Hf) in E0. discriminate.
  - rewrite Hs in E1. cbn in E1.
    rewrite (py_float_None _ Hf) in E1. discriminate.
  - destruct (decide _) as [_|Hn]; [|lia].
    rewrite Hs. cbn [default from_option id]. by rewrite (py_float_None _ Hf), bind_Raise.
Qed.

(** The conversion raises nothing but [ValueError]. *)
Lemma floats_of_coords_raise coords e :
  floats_of_coords coords = Raise e -> e = ValueError.
Proof.
  unfold floats_of_coords, py_float.
  destruct (float_of_str (default [] (coords !! 0%nat))); [|by intros [= <-]].
  rewrite bind_Return.
  destruct (float_of_str (default [] (coords !! 1%nat))); [|by intros [= <-]].
  rewrite bind_Return.
  destruct (decide _).
  - destruct (float_of_str (default [] (coords !! 2%nat))); [discriminate|by intros [= <-]].
  - discriminate.
Qed.

Lemma parse_kml_point_eq root :
  parse_kml_point (Parsed root) = Return (find_kml "coordinates" root ≫= yield).
Proof.
  unfold parse_kml_point, parse_kml_point_try.
  cbn [ET_parse]. rewrite bind_Return.
  destruct (find_kml "coordinates" root) as [c|]; [|reflexivity].
  cbn [mbind option_bind]. unfold yield.
  destruct (text_of (Some c)) as [t|]; [|reflexivity].
  cbv zeta. destruct (decide _); [|reflexivity].
  destruct (floats_of_coords _) as [p|e] eqn:E; [reflexivity|].
  rewrite bind_Raise. apply floats_of_coords_raise in E as ->. reflexivity.
Qed.

Lemma parse_kml_point_coords root coords p :
  coords_of root = Some coords -> 2 <= length coords ->
  floats_of_coords coords = Return p ->
  parse_kml_point (Parsed root) = Return (Some p).
Proof.
  unfold coords_of. intros Hc Hlen Hp. rewrite parse_kml_point_eq.
  destruct (find_kml "coordinates" root) as [c|]; [|discriminate].
  cbn [mbind option_bind]. unfold yield.
  destruct (text_of (Some c)) as [t|]; [|discriminate].
  cbn [fmap option_fmap option_map] in Hc. apply (inj Some) in Hc as <-. cbv zeta. rewrite decide_True by exact Hlen.
  by rewrite Hp.
Qed.

Lemma placemark_step_short i m :
  short_coordinates m -> placemark_step i m = Return None.
Proof.
  unfold short_coordinates, coords_of, placemark_step.
  destruct (text_of (find_kml "coordinates" m)) as [t|]; [|reflexivity].
  cbn [fmap option_fmap option_map]. intros H.
  rewrite decide_False by lia. reflexivity.
Qed.

Lemma placemark_step_bad i m :
  bad_number m -> placemark_step i m = Raise ValueError.
Proof.
  unfold bad_number, coords_of, placemark_step.
  intros (coords & k & s & Hc & Hlen & Hk & Hs & Hf).
  destruct (text_of (find_kml "coordinates" m)) as [t|]; [|discriminate].
  cbn [fmap option_fmap option_map] in Hc. apply (inj Some) in Hc as <-. cbv zeta. rewrite decide_True by exact Hlen.
  by rewrite (floats_of_coords_bad _ _ _ Hk Hs Hf), bind_Raise.
Qed.

(** A marker with at least two components whose conversion succeeds is
    materialised, under its declared name or [Point_<i+1>]. *)
Lemma placemark_step_point i m coords p :
  coords_of m = Some coords -> 2 <= length coords ->
  floats_of_coords coords = Return p ->
  exists d, placemark_step i m = Return (Some d)
    /\ pd_coordinates d = p
    /\ pd_name d = default (py "Point_" ++ str_of_nat (i + 1))
                           (text_of (find_kml "name" m)).
Proof.
  unfold coords_of, placemark_step. intros Hc Hlen Hp.
  destruct (text_of (find_kml "coordinates" m)) as [t|]; [|discriminate].
  cbn [fmap option_fmap option_map] in Hc. apply (inj Some) in Hc as <-. cbv zeta. rewrite decide_True by exact Hlen.
  rewrite Hp, bind_Return, extract_eq.
  destruct (extract_try_returns
              (default [] (text_of (find_kml "description" m)))) as [v ->].
  rewrite bind_Return. eexists. split; [reflexivity|]. split; reflexivity.
Qed.

Lemma enumerate_from_app {A} (l1 l2 : list A) start :
  enumerate_from start (l1 ++ l2) =
  enumerate_from start l1 ++ enumerate_from (start + length l1) l2.
Proof.
  revert start. induction l1 as [|x l1 IH]; intros start; cbn [app enumerate_from length].
  - by rewrite Nat.add_0_r.
  - rewrite IH. by replace (S start + length l1) with (start + S (length l1)) by lia.
Qed.

(** Skipping: an iteration that appends nothing leaves no trace. *)
Lemma placemark_loop_skip ps1 i m ps2 points :
  placemark_step i m = Return None ->
  placemark_loop (ps1 ++ (i, m) :: ps2) points = placemark_loop (ps1 ++ ps2) points.
Proof.
  intros Hm. revert points. induction ps1 as [|[j x] ps1 IH]; intros points.
  - cbn [app placemark_loop]. by rewrite Hm.
  - cbn [app placemark_loop]. destruct (placemark_step j x) as [[d|]|e];
      [apply IH | apply IH | reflexivity].
Qed.

(** Stopping: an iteration that raises ends the loop with the points
    appended so far. *)
Lemma placemark_loop_stop ps1 i m ps2 points e :
  placemark_step i m = Raise e ->
  fst (placemark_loop (ps1 ++ (i, m) :: ps2) points) = fst (placemark_loop ps1 points).
Proof.
  intros Hm. revert points. induction ps1 as [|[j x] ps1 IH]; intros points.
  - cbn [app placemark_loop]. by rewrite Hm.
  - cbn [app placemark_loop]. destruct (placemark_step j x) as [[d|]|e'];
      [apply IH | apply IH | reflexivity].
Qed.

End Parser.

Section ParserClaims.
Context {rt : PyRuntime}.

Lemma parse_all_single root e d :
  placemarks_of root = [e] -> placemark_step 0 e = Return (Some d) ->
  parse_all_kml_points (Parsed root) = [d].
Proof.
  intros He Hd. unfold parse_all_kml_points. cbn [ET_parse]. rewrite He.
  cbn [enumerate_from placemark_loop]. by rewrite Hd.
Qed.

(** C4. A coordinate text with exactly two numeric components yields the
    elevation [0.0], and one with exactly three yields the elevation it
    gives, in single-point mode as in the bulk parser. *)
Theorem C4_elevation (e : element) (a b c : pystr) (lon lat alt : float) :
  float_of_str a = Some lon -> float_of_str b = Some lat ->
  (coords_of e = Some [a; b] ->
     parse_kml_point (Parsed e) = Return (Some (lon, lat, float_zero))
     /\ forall root, placemarks_of root = [e] ->
          map pd_coordinates (parse_all_kml_points (Parsed root))
          = [(lon, lat, float_zero)])
  /\ (coords_of e = Some [a; b; c] -> float_of_str c = Some alt ->
     parse_kml_point (Parsed e) = Return (Some (lon, lat, alt))
     /\ forall root, placemarks_of root = [e] ->
          map pd_coordinates (parse_all_kml_points (Parsed root))
          = [(lon, lat, alt)]).
Proof.
  intros Ha Hb. split.
  - intros He. pose proof (floats_of_coords_2 _ _ _ _ Ha Hb) as Hp.
    split.
    + eapply parse_kml_point_coords; [exact He | cbn [length]; lia | exact Hp].
    + intros root Hroot.
      destruct (placemark_step_point 0 e _ _ He ltac:(cbn [length]; lia) Hp)
        as (d & Hd & Hcoord & _).
      rewrite (parse_all_single _ _ _ Hroot Hd). cbn [map]. by rewrite Hcoord.
  - intros He Hc. pose proof (floats_of_coords_3 _ _ _ [] _ _ _ Ha Hb Hc) as Hp.
    split.
    + eapply parse_kml_point_coords; [exact He | cbn [length]; lia | exact Hp].
    + intros root Hroot.
      destruct (placemark_step_point 0 e _ _ He ltac:(cbn [length]; lia) Hp)
        as (d & Hd & Hcoord & _).
      rewrite (parse_all_single _ _ _ Hroot Hd). cbn [map]. by rewrite Hcoord.
Qed.

(** C10 (amended). When a marker with at least two components has a first,
    second or third component that is not a number, the document yields
    exactly what a document holding only the markers before it yields: the
    earlier records are kept, the later markers are dropped, and the parser
    returns its list. *)
Theorem C10_bad_number_stops_extraction root pre m post root' :
  placemarks_of root = pre ++ m :: post ->
  bad_number m ->
  placemarks_of root' = pre ->
  parse_all_kml_points (Parsed root) = parse_all_kml_points (Parsed root').
Proof.
  intros Hroot Hm Hroot'. unfold parse_all_kml_points. cbn [ET_parse].
  rewrite Hroot, Hroot', enumerate_from_app. cbn [enumerate_from].
  apply (placemark_loop_stop _ _ _ _ _ _ (placemark_step_bad _ _ Hm)).
Qed.

End ParserClaims.

Section BasePoint.
Context {rt : PyRuntime}.

Lemma find_descendant t e c : find t e = Some c -> c ∈ descendants e.
Proof.
  unfold find, findall. intros H. apply head_Some_elem_of in H.
  by apply list_elem_of_filter in H as [_ H].
Qed.

Lemma find_kml_descendant local e c :
  find_kml local e = Some c -> c ∈ descendants e.
Proof.
  unfold find_kml. destruct (find (kml local) e) eqn:E.
  - intros [= <-]. by eapply find_descendant.
  - apply find_descendant.
Qed.

Lemma get_base_point_parsed w root :
  base_kml w = Some (Parsed root) ->
  get_base_point w =
  match find_kml "coordinates" root ≫= yield with
  | Some p => Return p
  | None => Raise ValueError
  end.
Proof.
  intros Hw. unfold get_base_point. rewrite Hw, parse_kml_point_eq, bind_Return.
  reflexivity.
Qed.

(** C5 (amended). Single-point mode looks at the first coordinates node only
    (the qualified lookup first, the unqualified one when that finds
    nothing): it returns what that node yields, whatever the names and
    descriptions are, and fails when that node yields no point, hence
    whenever no node of the document yields one. *)
Theorem C5_single_point_first_node w root :
  base_kml w = Some (Parsed root) ->
  get_base_point w =
    match find_kml "coordinates" root ≫= yield with
    | Some p => Return p
    | None => Raise ValueError
    end
  /\ ((forall c, c ∈ descendants root -> yield c = None) ->
      get_base_point w = Raise ValueError).
Proof.
  intros Hw. split; [by apply get_base_point_parsed|].
  intros Hnone. rewrite (get_base_point_parsed _ _ Hw).
  destruct (find_kml "coordinates" root) as [c|] eqn:E; [|reflexivity].
  cbn [mbind option_bind]. by rewrite (Hnone c (find_kml_descendant _ _ _ E)).
Qed.

Lemma yield_short root :
  short_coordinates root -> find_kml "coordinates" root ≫= yield = None.
Proof.
  unfold short_coordinates, coords_of.
  destruct (find_kml "coordinates" root) as [c|]; [|reflexivity].
  cbn [mbind option_bind]. unfold yield.
  destruct (text_of (Some c)) as [t|]; [|reflexivity].
  cbn [fmap option_fmap option_map]. intros H. cbv zeta.
  by rewrite decide_False by lia.
Qed.

Lemma process_base_raises w e :
  get_base_point w = Raise e ->
  process_try w {| files := output_paths w; written := [] |}
  = ({| files := output_paths w; written := [] |}, Raise e).
Proof. intros H. unfold process_try. by rewrite H. Qed.

Lemma get_base_point_raise w e :
  get_base_point w = Raise e -> e = FileNotFoundError \/ e = ValueError.
Proof.
  unfold get_base_point. destruct (base_kml w) as [[|root]|].
  - cbn. intros [= <-]. by right.
  - rewrite parse_kml_point_eq, bind_Return.
    destruct (_ ≫= _); [discriminate | intros [= <-]; by right].
  - intros [= <-]. by left.
Qed.

(** C8. When the base document is missing, cannot be parsed, or yields
    fewer than two coordinate components, the run ends with exit status 1
    and has written no file: the output directory is as it was. *)
Theorem C8_base_failure_aborts w :
  base_kml w = None \/ base_kml w = Some Unparsable
  \/ (exists root, base_kml w = Some (Parsed root) /\ short_coordinates root) ->
  snd (process_all_points w) = Raise (SystemExit 1)
  /\ exit_status (snd (process_all_points w)) = 1
  /\ written (fst (process_all_points w)) = []
  /\ files (fst (process_all_points w)) = output_paths w.
Proof.
  intros H.
  assert (exists e, get_base_point w = Raise e) as [e He].
  { unfold get_base_point. destruct H as [-> | [-> | (root & -> & Hshort)]].
    - by eexists.
    - by eexists.
    - rewrite parse_kml_point_eq, bind_Return, (yield_short _ Hshort). by eexists. }
  unfold process_all_points. rewrite (process_base_raises _ _ He).
  cbn [fst snd files written].
  destruct (get_base_point_raise _ _ He) as [-> | ->]; by repeat split.
Qed.

End BasePoint.

(** ** The claims on sample inputs *)

Lemma C4_elevation_witness :
  parse_kml_point (rt := int_runtime) (Parsed (marker "" "5,7" ""))
    = Return (Some (5, 7, 0)%Z)
  /\ parse_kml_point (rt := int_runtime) (Parsed (marker "" "5,7,9" ""))
    = Return (Some (5, 7, 9)%Z).
Proof.
  split.
  - exact (proj1 (proj1 (C4_elevation (rt := int_runtime) (marker "" "5,7" "")
                           (py "5") (py "7") [] 5%Z 7%Z 0%Z eq_refl eq_refl)
                        eq_refl)).
  - exact (proj1 (proj2 (C4_elevation (rt := int_runtime) (marker "" "5,7,9" "")
                           (py "5") (py "7") (py "9") 5%Z 7%Z 9%Z eq_refl eq_refl)
                        eq_refl eq_refl)).
Defined.

Lemma C2_short_marker_counterexample :
  map pd_name
      (parse_all_kml_points (rt := int_runtime) (Parsed short_then_good))
    = [py "Point_2"]
  /\ map pd_name
       (parse_all_kml_points (rt := int_runtime)
          (Parsed (document [marker "" "1,2" ""])))
    = [py "Point_1"]
  /\ py "Point_2" <> py "Point_1".
Proof. vm_compute. repeat split; discriminate. Qed.

Lemma C10_word_marker_counterexample :
  float_of_str (PyRuntime := int_runtime) (py "abc") = None
  /\ coords_of (marker "" "abc" "") = Some [py "abc"]
  /\ map pd_coordinates
       (parse_all_kml_points (rt := int_runtime) (Parsed word_then_good))
     = [(1, 2, 0)%Z].
Proof. vm_compute. repeat split. Qed.

Lemma C10_bad_number_witness :
  parse_all_kml_points (rt := int_runtime) (Parsed good_bad_good)
  = parse_all_kml_points (rt := int_runtime)
      (Parsed (document [marker "A" "1,2" ""])).
Proof.
  apply (C10_bad_number_stops_extraction (rt := int_runtime) good_bad_good
           [marker "A" "1,2" ""] (marker "B" "3,x" "") [marker "C" "5,6" ""]
           (document [marker "A" "1,2" ""]) eq_refl).
  - exists [py "3"; py "x"], 1, (py "x"). vm_compute. repeat split; lia.
  - reflexivity.
Defined.

Lemma C5_first_node_counterexample :
  let second := el "coordinates" "1,2" [] in
  second ∈ descendants short_then_good
  /\ yield (rt := int_runtime) second = Some (1, 2, 0)%Z
  /\ parse_kml_point (rt := int_runtime) (Parsed short_then_good) = Return None
  /\ get_base_point (rt := int_runtime) (world_of (Some (Parsed short_then_good)) [])
     = Raise ValueError.
Proof.
  cbv zeta. split; [|vm_compute; repeat split].
  vm_compute. repeat (first [apply list_elem_of_here | apply list_elem_of_further]).
Qed.

Lemma C5_single_point_witness :
  get_base_point (rt := int_runtime)
    (world_of (Some (Parsed (marker "Base" "-122,47" "ignored"))) [])
  = Return (-122, 47, 0)%Z.
Proof.
  exact (proj1 (C5_single_point_first_node (rt := int_runtime)
           (world_of (Some (Parsed (marker "Base" "-122,47" "ignored"))) [])
           (marker "Base" "-122,47" "ignored") eq_refl)).
Defined.

Lemma C8_base_failure_witness :
  snd (process_all_points (rt := int_runtime)
         (world_of (Some (Parsed (marker "Base" "47" "")))
                   [(py "a.kml", Parsed short_then_good)]))
    = Raise (SystemExit 1)
  /\ written (fst (process_all_points (rt := int_runtime)
         (world_of None [(py "a.kml", Parsed short_then_good)]))) = [].
Proof.
  split.
  - refine (proj1 (C8_base_failure_aborts (rt := int_runtime)
             (world_of (Some (Parsed (marker "Base" "47" "")))
                       [(py "a.kml", Parsed short_then_good)]) _)).
    right. right. eexists. split; [reflexivity|].
    unfold short_coordinates. vm_compute. lia.
  - refine (proj1 (proj2 (proj2 (C8_base_failure_aborts (rt := int_runtime)
             (world_of None [(py "a.kml", Parsed short_then_good)]) _)))).
    left. reflexivity.
Defined.

Section Numbering.

Lemma value_le_app x y :
  value_le (x ++ y) = (value_le x + 10 ^ N.of_nat (length x) * value_le y)%N.
Proof.
  induction x as [|d x IH]; cbn [app value_le length].
  - change (N.of_nat 0) with 0%N. rewrite N.pow_0_r. lia.
  - rewrite IH, Nat2N.inj_succ, N.pow_succ_r'. lia.
Qed.

Lemma digits_of_pos_fuel_value fuel : forall n acc,
  N.to_nat n < fuel ->
  value_le (rev (digits_of_pos_fuel fuel n acc))
  = (value_le (rev acc) + 10 ^ N.of_nat (length acc) * n)%N.
Proof.
  induction fuel as [|fuel IH]; intros n acc Hfuel; [lia|].
  cbn [digits_of_pos_fuel]. cbv zeta.
  pose proof (N.div_mod n 10 ltac:(lia)) as Hdm.
  pose proof (N.mod_lt n 10 ltac:(lia)) as Hmod.
  destruct (n <? 10)%N eqn:Hlt.
  - apply N.ltb_lt in Hlt. rewrite N.mod_small by exact Hlt.
    cbn [rev]. rewrite value_le_app, length_rev. cbn [value_le].
    rewrite (N.add_comm 48), N.add_sub. ring.
  - apply N.ltb_ge in Hlt.
    rewrite IH.
    + cbn [rev length]. rewrite value_le_app, length_rev, Nat2N.inj_succ, N.pow_succ_r'.
      cbn [value_le].
      rewrite (N.add_comm 48), N.add_sub.
      remember (n / 10)%N as q. remember (n mod 10)%N as r.
      remember (10 ^ N.of_nat (length acc))%N as P.
      rewrite Hdm. ring.
    + assert (Hq : (n / 10 < n)%N) by (apply N.div_lt; lia).
      revert Hq. generalize (n / 10)%N. intros q Hq. lia.
Qed.

Lemma decimal_value_str_of_N n : decimal_value (str_of_N n) = n.
Proof.
  unfold decimal_value, str_of_N. rewrite digits_of_pos_fuel_value by lia.
  cbn. lia.
Qed.

Lemma digits_of_pos_fuel_digits fuel : forall n acc,
  Forall (fun c => isdigit_ascii c = true) acc ->
  Forall (fun c => isdigit_ascii c = true) (digits_of_pos_fuel fuel n acc).
Proof.
  induction fuel as [|fuel IH]; intros n acc Hacc; [exact Hacc|].
  cbn [digits_of_pos_fuel]. cbv zeta.
  assert (Hd : isdigit_ascii (48 + n mod 10) = true).
  { pose proof (N.mod_lt n 10 ltac:(lia)) as Hr. unfold isdigit_ascii.
    revert Hr. generalize (n mod 10)%N. intros r Hr.
    apply andb_true_iff. split; apply N.leb_le; lia. }
  destruct (n <? 10)%N; [by constructor | apply IH; by constructor].
Qed.

Lemma str_of_N_digits n : Forall (fun c => isdigit_ascii c = true) (str_of_N n).
Proof. apply digits_of_pos_fuel_digits. constructor. Qed.

Lemma value_le_zeros k : value_le (replicate k (ch "0")) = 0%N.
Proof. induction k as [|k IH]; [reflexivity|]. cbn [replicate value_le]. rewrite IH. reflexivity. Qed.

Lemma decimal_value_format_03d n : decimal_value (format_03d n) = N.of_nat n.
Proof.
  unfold decimal_value, format_03d. cbv zeta.
  rewrite rev_app_distr, value_le_app.
  assert (rev (replicate (3 - length (str_of_nat n)) (ch "0"))
          = replicate (3 - length (str_of_nat n)) (ch "0")) as ->.
  { generalize (3 - length (str_of_nat n)). intros k.
    induction k as [|k IH]; [reflexivity|].
    cbn [replicate rev]. rewrite IH.
    clear IH. induction k as [|k IH]; [reflexivity|].
    cbn [replicate app]. by rewrite IH. }
  rewrite value_le_zeros.
  pose proof (decimal_value_str_of_N (N.of_nat n)) as H.
  unfold decimal_value, str_of_nat in *. rewrite H. lia.
Qed.

Lemma format_03d_digits n : Forall (fun c => isdigit_ascii c = true) (format_03d n).
Proof.
  unfold format_03d. cbv zeta. apply Forall_app. split.
  - apply Forall_forall. intros c Hc. apply elem_of_replicate in Hc as [-> _].
    reflexivity.
  - apply str_of_N_digits.
Qed.

Lemma format_03d_length n : 3 <= length (format_03d n).
Proof. unfold format_03d. cbv zeta. rewrite length_app, length_replicate. lia. Qed.


Lemma takewhile_app p x y :
  Forall (fun c => p c = true) x ->
  match y with [] => True | c :: _ => p c = false end ->
  takewhile p (x ++ y) = x.
Proof.
  intros Hx Hy. induction Hx as [|c x Hc Hx IH]; cbn [app takewhile].
  - destruct y as [|c y]; [reflexivity|]. cbn [takewhile]. by rewrite Hy.
  - by rewrite Hc, IH.
Qed.

End Numbering.

Section Filenames.
Context {rt : PyRuntime}.

Lemma mission_filename_eq i a :
  mission_filename i a =
  format_03d i
  ++ match truthy a with
     | Some label => py "_" ++ sanitize label ++ py ".kml"
     | None => py ".kml"
     end.
Proof.
  unfold mission_filename. cbv zeta.
  destruct (truthy a) as [label|]; cbn [join]; by rewrite <- ?app_assoc.
Qed.

(** The number at the head of a file name is the position it was made
    from. *)
Lemma file_index_mission_filename i a :
  file_index (mission_filename i a) = N.of_nat i.
Proof.
  unfold file_index. rewrite mission_filename_eq, takewhile_app.
  - apply decimal_value_format_03d.
  - apply format_03d_digits.
  - destruct (truthy a); reflexivity.
Qed.

Lemma mission_filename_inj i j a b :
  mission_filename i a = mission_filename j b -> i = j.
Proof.
  intros H. apply (f_equal file_index) in H.
  rewrite !file_index_mission_filename in H. lia.
Qed.

End Filenames.

Section Orchestration.
Context {rt : PyRuntime}.


Lemma placemark_step_labelled i m d :
  placemark_step i m = Return (Some d) -> labelled (pd_table_attribute d).
Proof.
  unfold placemark_step.
  destruct (text_of (find_kml "coordinates" m)) as [t|]; [|discriminate].
  cbv zeta. destruct (decide _); [|discriminate].
  destruct (floats_of_coords _) as [p|e]; [|discriminate].
  rewrite bind_Return.
  pose proof (extract_not_empty (default [] (text_of (find_kml "description" m)))) as Hne.
  destruct (extract_html_table_attribute_from_text _) as [v|e]; [|discriminate].
  rewrite bind_Return. intros [= <-]. cbn [pd_table_attribute].
  intros ->. by apply Hne.
Qed.

Lemma placemark_loop_labelled ps : forall points,
  Forall (fun d => labelled (pd_table_attribute d)) points ->
  Forall (fun d => labelled (pd_table_attribute d)) (fst (placemark_loop ps points)).
Proof.
  induction ps as [|[i m] ps IH]; intros points Hpts; [exact Hpts|].
  cbn [placemark_loop]. destruct (placemark_step i m) as [[d|]|e] eqn:E.
  - apply IH, Forall_app. split; [exact Hpts|].
    constructor; [by eapply placemark_step_labelled | constructor].
  - by apply IH.
  - exact Hpts.
Qed.

Lemma parse_all_labelled f :
  Forall (fun d => labelled (pd_table_attribute d)) (parse_all_kml_points f).
Proof.
  unfold parse_all_kml_points. destruct f as [|root]; cbn [ET_parse]; [constructor|].
  apply placemark_loop_labelled. constructor.
Qed.


Lemma mission_loop_app r base ps1 ps2 st :
  mission_loop r base (ps1 ++ ps2) st =
  match mission_loop r base ps1 st with
  | (st', Return _) => mission_loop r base ps2 st'
  | (st', Raise e) => (st', Raise e)
  end.
Proof.
  revert st. induction ps1 as [|[i p] ps1 IH]; intros st; [reflexivity|].
  cbn [app mission_loop]. unfold write_file.
  destruct (r (mission_filename i (dp_table_attribute p))); [reflexivity|].
  apply IH.
Qed.

(** The files opened by the loop: those of the entries before the first
    name that cannot be opened. *)
Lemma mission_loop_written r base ps : forall st,
  written (fst (mission_loop r base ps st))
  = written st ++ opened r (map filename_of ps).
Proof.
  induction ps as [|[i p] ps IH]; intros st; cbn [mission_loop map opened].
  - cbn. by rewrite app_nil_r.
  - unfold write_file, filename_of at 1. cbn [fst snd].
    destruct (r (mission_filename i (dp_table_attribute p))).
    + cbn. by rewrite app_nil_r.
    + rewrite IH. cbn [written]. by rewrite <- app_assoc.
Qed.

Lemma mission_loop_returns r base ps : forall st,
  Forall (fun n => r n = false) (map filename_of ps) ->
  snd (mission_loop r base ps st) = Return tt.
Proof.
  induction ps as [|[i p] ps IH]; intros st H; [reflexivity|].
  cbn [map] in H. inversion H as [|? ? Hn Hrest]; subst.
  unfold filename_of in Hn. cbn [fst snd] in Hn.
  cbn [mission_loop]. unfold write_file. rewrite Hn. by apply IH.
Qed.


(** Writes under other names leave a file alone. *)
Lemma mission_loop_other r base ps name : forall st,
  Forall (fun entry => filename_of entry <> name) ps ->
  files (fst (mission_loop r base ps st)) !! name = files st !! name.
Proof.
  induction ps as [|[i p] ps IH]; intros st Hps; [reflexivity|].
  inversion Hps as [|? ? Hhd Htl]; subst. cbn [mission_loop]. unfold write_file.
  destruct (r (mission_filename i (dp_table_attribute p))); [reflexivity|].
  rewrite IH by exact Htl. cbn [files].
  by apply lookup_insert_ne.
Qed.

Lemma enumerate_from_lookup {A} (l : list A) start k x :
  l !! k = Some x -> enumerate_from start l !! k = Some (start + k, x).
Proof.
  revert start k. induction l as [|y l IH]; intros start [|k] H; try discriminate.
  - injection H as ->. cbn [enumerate_from]. by rewrite Nat.add_0_r.
  - change (enumerate_from (S start) l !! k = Some (start + S k, x)).
    change (l !! k = Some x) in H. rewrite (IH (S start) k H).
    by replace (S start + k) with (start + S k) by lia.
Qed.

Lemma enumerate_from_index {A} (l : list A) start :
  Forall (fun entry => start <= fst entry) (enumerate_from start l).
Proof.
  revert start. induction l as [|y l IH]; intros start; cbn [enumerate_from];
    constructor; [cbn; lia|].
  eapply Forall_impl; [apply IH|]. cbn. intros; lia.
Qed.

Lemma enumerate_from_split {A} (l : list A) start k x :
  l !! k = Some x ->
  enumerate_from start l =
  enumerate_from start (take k l) ++ (start + k, x)
    :: enumerate_from (S (start + k)) (drop (S k) l).
Proof.
  intros H. rewrite <- (take_drop_middle l k x H) at 1.
  rewrite enumerate_from_app. cbn [enumerate_from].
  assert (length (take k l) = k) as ->; [|reflexivity].
  apply lookup_lt_Some in H. rewrite length_take. lia.
Qed.

Lemma enumerate_from_length {A} (l : list A) start :
  length (enumerate_from start l) = length l.
Proof.
  revert start. induction l as [|x l IH]; intros start; [reflexivity|].
  cbn [enumerate_from length]. by rewrite IH.
Qed.

Lemma opened_lookup r names k n :
  opened r names !! k = Some n ->
  names !! k = Some n /\ Forall (fun x => r x = false) (take (S k) names).
Proof.
  revert k. induction names as [|x names IH]; intros k H; [discriminate|].
  cbn [opened] in H. destruct (r x) eqn:E; [discriminate|].
  destruct k as [|k].
  - injection H as ->. split; [reflexivity|]. cbn. by repeat constructor.
  - change (opened r names !! k = Some n) in H. destruct (IH _ H) as [Hn Hall].
    split; [exact Hn|]. change (take (S (S k)) (x :: names)) with (x :: take (S k) names).
    by constructor.
Qed.



Lemma mission_names_lookup w k p :
  get_destination_points w !! k = Some p ->
  mission_names w !! k = Some (mission_filename (S k) (dp_table_attribute p)).
Proof.
  intros Hk. unfold mission_names.
  change (map filename_of ?l) with (filename_of <$> l).
  by rewrite list_lookup_fmap, (enumerate_from_lookup _ 1 k p Hk).
Qed.

Lemma mission_names_lookup_inv w k n :
  mission_names w !! k = Some n ->
  exists p, get_destination_points w !! k = Some p
            /\ n = mission_filename (S k) (dp_table_attribute p).
Proof.
  intros H.
  destruct (get_destination_points w !! k) as [p|] eqn:E.
  - exists p. split; [reflexivity|]. rewrite (mission_names_lookup _ _ _ E) in H.
    by injection H.
  - apply lookup_ge_None in E. apply lookup_lt_Some in H.
    unfold mission_names in H. rewrite length_map, enumerate_from_length in H. lia.
Qed.

Lemma mission_names_NoDup w : NoDup (mission_names w).
Proof.
  apply NoDup_alt. intros i j n Hi Hj.
  apply mission_names_lookup_inv in Hi as (p & _ & ->).
  apply mission_names_lookup_inv in Hj as (q & _ & Hq).
  apply mission_filename_inj in Hq. lia.
Qed.

(** The run before its [except] clause. *)
Lemma process_try_run w base :
  get_base_point w = Return base ->
  process_try w {| files := output_paths w; written := [] |}
  = mission_loop (open_raises w) base
      (enumerate_from 1 (get_destination_points w))
      {| files := output_paths w; written := [] |}.
Proof.
  intros Hb. unfold process_try. rewrite Hb.
  destruct (get_destination_points w); reflexivity.
Qed.

Lemma process_all_points_fst w :
  fst (process_all_points w)
  = fst (process_try w {| files := output_paths w; written := [] |}).
Proof. unfold process_all_points. by destruct (process_try w _). Qed.


(** The files a run opens: none when the base point cannot be read, else
    those of the destination points before the first name that cannot be
    opened. *)
Lemma run_written w :
  written (fst (process_all_points w))
  = match get_base_point w with
    | Return _ => opened (open_raises w) (mission_names w)
    | Raise _ => []
    end.
Proof.
  rewrite process_all_points_fst.
  destruct (get_base_point w) as [base|e] eqn:Hb.
  - by rewrite (process_try_run _ _ Hb), mission_loop_written.
  - unfold process_try. by rewrite Hb.
Qed.

(** A file of the run holds the document of its point. *)
Lemma run_file_of_point w base k p :
  get_base_point w = Return base ->
  get_destination_points w !! k = Some p ->
  k < length (written (fst (process_all_points w))) ->
  files (fst (process_all_points w)) !! mission_filename (S k) (dp_table_attribute p)
  = Some (content_of base p).
Proof.
  intros Hb Hk Hlen.
  destruct (lookup_lt_is_Some_2 _ _ Hlen) as [n Hn].
  rewrite run_written, Hb in Hn. apply opened_lookup in Hn as [_ Hopen].
  rewrite process_all_points_fst, (process_try_run _ _ Hb).
  unfold mission_names in Hopen.
  rewrite (enumerate_from_split _ 1 k p Hk) in Hopen |- *.
  rewrite map_app in Hopen. cbn [map] in Hopen.
  assert (Hlk : length (map filename_of
                  (enumerate_from 1 (take k (get_destination_points w)))) = k).
  { rewrite length_map, enumerate_from_length, length_take.
    apply lookup_lt_Some in Hk. lia. }
  rewrite <- Hlk in Hopen at 1.
  replace (S (length (map filename_of
             (enumerate_from 1 (take k (get_destination_points w))))))
    with (length (map filename_of
             (enumerate_from 1 (take k (get_destination_points w)))) + 1)
    in Hopen by lia.
  rewrite take_app_add in Hopen. cbn [take] in Hopen.
  apply Forall_app in Hopen as [H1 H2]. inversion H2 as [|? ? Hopen_k _]; subst.
  unfold filename_of in Hopen_k. cbn [fst snd Nat.add] in Hopen_k.
  rewrite mission_loop_app.
  pose proof (mission_loop_returns (open_raises w) base _
                {| files := output_paths w; written := [] |} H1) as Hret.
  destruct (mission_loop (open_raises w) base
              (enumerate_from 1 (take k (get_destination_points w))) _)
    as [st' r'] eqn:E.
  cbn [snd] in Hret. subst r'.
  cbn [mission_loop Nat.add]. unfold write_file. rewrite Hopen_k.
  rewrite mission_loop_other.
  - cbn [files]. apply lookup_insert_eq.
  - eapply Forall_impl; [apply enumerate_from_index|].
    intros [j q] Hj Heq. unfold filename_of in Heq. cbn [fst snd] in Hj, Heq.
    apply mission_filename_inj in Heq. lia.
Qed.



(** C1 (amended). Two distinct target points never share a file name, not
    even when their labels sanitize to the same string, because the name
    starts with the position: no name is opened twice in a run, and a file
    that the run has written holds the document of its own point when the
    run ends, so a later write does not overwrite an earlier one. *)
Theorem C1_no_overwrite w j k pj pk :
  get_destination_points w !! j = Some pj ->
  get_destination_points w !! k = Some pk ->
  j <> k ->
  mission_filename (S j) (dp_table_attribute pj)
    <> mission_filename (S k) (dp_table_attribute pk)
  /\ NoDup (written (fst (process_all_points w)))
  /\ (j < length (written (fst (process_all_points w))) ->
      exists base,
        get_base_point w = Return base
        /\ files (fst (process_all_points w))
             !! mission_filename (S j) (dp_table_attribute pj)
           = Some (create_dji_mission_kml base (dp_coordinates pj) (dp_name pj))).
Proof.
  intros Hj Hk Hjk. split; [|split].
  - intros Heq. apply mission_filename_inj in Heq. lia.
  - rewrite run_written. destruct (get_base_point w); [|constructor].
    apply NoDup_alt. intros i1 i2 n Ha Hb.
    apply opened_lookup in Ha as [Ha _]. apply opened_lookup in Hb as [Hb _].
    pose proof (mission_names_NoDup w) as Hnd. rewrite NoDup_alt in Hnd.
    by eapply Hnd.
  - intros Hlen. destruct (get_base_point w) as [base|e] eqn:Hb.
    + exists base. split; [reflexivity|]. by apply run_file_of_point.
    + rewrite run_written, Hb in Hlen. cbn in Hlen. lia.
Qed.

End Orchestration.


Lemma C1_same_label_counterexample :
  map dp_table_attribute (get_destination_points (rt := int_runtime) twin_world)
    = [Some (py "Tower A"); Some (py "Tower A")]
  /\ written (fst (process_all_points (rt := int_runtime) twin_world))
     = [py "001_Tower_A.kml"; py "002_Tower_A.kml"]
  /\ py "001_Tower_A.kml" <> py "002_Tower_A.kml"
  /\ files (fst (process_all_points (rt := int_runtime) twin_world))
       !! py "001_Tower_A.kml"
     = Some (create_dji_mission_kml (int_point (-122) 47 0) (int_point 1 2 0)
               (py "North")).
Proof.
  split; [vm_compute; reflexivity|]. split; [vm_compute; reflexivity|].
  split; [discriminate|].
  vm_compute. reflexivity.
Qed.

Lemma C1_no_overwrite_witness :
  mission_filename (rt := int_runtime) 1 (Some (py "Tower A"))
  <> mission_filename (rt := int_runtime) 2 (Some (py "Tower A")).
Proof.
  exact (proj1 (C1_no_overwrite (rt := int_runtime) twin_world 0 1
                  (int_dest "towers.kml" "North" (int_point 1 2 0) (Some (py "Tower A")))
                  (int_dest "towers.kml" "South" (int_point 3 4 0) (Some (py "Tower A")))
                  eq_refl eq_refl ltac:(lia))).
Defined.

Section Scanning.

Lemma startswith_compat pat : forall x r,
  startswith pat (x ++ r) = true -> compat pat x = true.
Proof.
  induction pat as [|p pat IH]; intros [|c x] r H; try reflexivity.
  cbn [app startswith compat] in *.
  apply andb_true_iff in H as [-> H]. by apply (IH _ r).
Qed.

Lemma no_start_cons pat c x :
  no_start pat (c :: x) = true ->
  (forall r, startswith pat (c :: x ++ r) = false) /\ no_start pat x = true.
Proof.
  cbn [no_start]. intros H. apply andb_true_iff in H as [Hc Hx].
  split; [|exact Hx]. intros r.
  destruct (startswith pat (c :: x ++ r)) eqn:E; [|reflexivity].
  apply (startswith_compat pat (c :: x) r) in E. by rewrite E in Hc.
Qed.

Lemma partition_skip pat x r :
  no_start pat x = true ->
  partition pat (x ++ r) = (fun ba => (x ++ fst ba, snd ba)) <$> partition pat r.
Proof.
  induction x as [|c x IH]; intros H.
  - cbn [app]. destruct (partition pat r) as [[b a]|]; reflexivity.
  - apply no_start_cons in H as [Hc Hx]. cbn [app partition].
    rewrite Hc, (IH Hx). destruct (partition pat r) as [[b a]|]; reflexivity.
Qed.

Lemma occurrences_skip pat x r :
  no_start pat x = true -> occurrences pat (x ++ r) = occurrences pat r.
Proof.
  induction x as [|c x IH]; intros H; [reflexivity|].
  apply no_start_cons in H as [Hc Hx]. cbn [app occurrences].
  by rewrite Hc, (IH Hx).
Qed.

Lemma startswith_here pat r : startswith pat (pat ++ r) = true.
Proof.
  induction pat as [|p pat IH]; [by destruct r|].
  cbn [app startswith]. by rewrite N.eqb_refl, IH.
Qed.

Lemma partition_here pat r : partition pat (pat ++ r) = Some ([], r).
Proof.
  destruct pat as [|p pat]; [by destruct r|].
  cbn [app partition]. change (p :: pat ++ r) with ((p :: pat) ++ r).
  rewrite startswith_here. f_equal. f_equal.
  by rewrite drop_app_length.
Qed.

Lemma occurrences_here p pat r :
  occurrences (p :: pat) ((p :: pat) ++ r) = S (occurrences (p :: pat) (pat ++ r)).
Proof.
  cbn [app occurrences]. change (p :: pat ++ r) with ((p :: pat) ++ r).
  by rewrite startswith_here.
Qed.

(** The first occurrence, found behind a prefix in which none can start. *)
Lemma partition_found pat x r :
  no_start pat x = true -> partition pat (x ++ pat ++ r) = Some (x, r).
Proof.
  intros H. rewrite (partition_skip _ _ _ H), partition_here.
  cbn. by rewrite app_nil_r.
Qed.

Lemma compat_app pat : forall x y, compat pat (x ++ y) = true -> compat pat x = true.
Proof.
  induction pat as [|p pat IH]; intros [|c x] y H; try reflexivity.
  cbn [app compat] in *. apply andb_true_iff in H as [-> H]. by apply (IH _ y).
Qed.

Lemma no_start_app pat x y :
  no_start pat x = true -> no_start pat y = true -> no_start pat (x ++ y) = true.
Proof.
  intros Hx Hy. induction x as [|c x IH]; [exact Hy|].
  cbn [no_start] in Hx. apply andb_true_iff in Hx as [Hc Hx].
  cbn [app no_start]. rewrite (IH Hx), andb_true_r.
  destruct (compat pat (c :: x ++ y)) eqn:E; [|reflexivity].
  apply (compat_app pat (c :: x) y) in E. by rewrite E in Hc.
Qed.

(** A text free of the first character of [pat]. *)
Lemma no_start_free p pat x :
  Forall (fun c => c <> p) x -> no_start (p :: pat) x = true.
Proof.
  induction 1 as [|c x Hc Hx IH]; [reflexivity|].
  cbn [no_start compat]. rewrite IH, andb_true_r.
  destruct (p =? c)%N eqn:E; [|reflexivity].
  apply N.eqb_eq in E. by subst.
Qed.

Lemma plain_text_free s :
  plain_text s = true -> Forall (fun c => c <> ch "<") s.
Proof.
  unfold plain_text. intros H. induction s as [|c s IH]; [constructor|].
  cbn [forallb] in H. apply andb_true_iff in H as [Hc Hs].
  apply andb_true_iff in Hc as [_ Hc]. constructor; [|by apply IH].
  apply negb_true_iff, N.eqb_neq in Hc. exact Hc.
Qed.

Lemma plain_text_nospace s :
  plain_text s = true -> Forall (fun c => isspace c = false) s.
Proof.
  unfold plain_text. intros H. induction s as [|c s IH]; [constructor|].
  cbn [forallb] in H. apply andb_true_iff in H as [Hc Hs].
  apply andb_true_iff in Hc as [Hc _]. constructor; [|by apply IH].
  by apply negb_true_iff in Hc.
Qed.

Lemma words_cons c s :
  words (c :: s) =
  if isspace c then words s
  else match s with
       | c' :: _ =>
           if isspace c' then [c] :: words s
           else match words s with
                | w :: ws => (c :: w) :: ws
                | [] => [[c]]
                end
       | [] => [[c]]
       end.
Proof. reflexivity. Qed.

Lemma words_spaces x r :
  Forall (fun c => isspace c = true) x -> words (x ++ r) = words r.
Proof.
  induction 1 as [|c x Hc Hx IH]; [reflexivity|].
  cbn [app]. by rewrite words_cons, Hc.
Qed.

(** A run without whitespace, ended by whitespace or by the end of the
    text, is one item. *)
Lemma words_word v r :
  v <> [] -> Forall (fun c => isspace c = false) v ->
  match r with [] => True | c :: _ => isspace c = true end ->
  words (v ++ r) = v :: words r.
Proof.
  intros Hne Hv Hr. induction Hv as [|c v Hc Hv IH]; [done|]. clear Hne.
  cbn [app]. rewrite words_cons, Hc. destruct v as [|c2 v].
  - cbn [app]. destruct r as [|c' r]; [reflexivity|]. by rewrite Hr.
  - cbn [app] in *. inversion Hv as [|? ? Hc2 _]; subst. rewrite Hc2.
    by rewrite IH.
Qed.

End Scanning.

Section Rendering.
Context {rt : PyRuntime}.

Lemma partition_Some_eq pat : forall s b a,
  partition pat s = Some (b, a) -> s = b ++ pat ++ a.
Proof.
  assert (Hsw : forall pat s, startswith pat s = true ->
                  s = pat ++ drop (length pat) s).
  { clear. induction pat as [|p pat IH]; intros s H; [reflexivity|].
    destruct s as [|c s]; [discriminate|]. cbn [startswith] in H.
    apply andb_true_iff in H as [Hp H]. apply N.eqb_eq in Hp as ->.
    cbn [app length drop]. f_equal. by apply IH. }
  induction s as [|c s IH]; intros b a; cbn [partition].
  - destruct (startswith pat []) eqn:E; [|discriminate].
    intros [= <- <-]. by apply Hsw.
  - destruct (startswith pat (c :: s)) eqn:E.
    + intros [= <- <-]. by apply Hsw.
    + destruct (partition pat s) as [[b' a']|]; [|discriminate].
      cbn. intros [= <- <-]. cbn [app]. f_equal. by apply IH.
Qed.

Lemma pieces_eq pat s :
  partition pat s <> None -> s = piece_before pat s ++ pat ++ piece_after pat s.
Proof.
  unfold piece_before, piece_after.
  destruct (partition pat s) as [[b a]|] eqn:E; [|done].
  intros _. by apply partition_Some_eq.
Qed.

Lemma no_start_lt pat x :
  head pat = Some (ch "<") -> Forall (fun c => c <> ch "<") x ->
  no_start pat x = true.
Proof.
  destruct pat as [|p pat]; [discriminate|]. intros [= ->]. apply no_start_free.
Qed.

Lemma occurrences_at pat r :
  pat <> [] -> occurrences pat (pat ++ r) = S (occurrences pat (tail pat ++ r)).
Proof. destruct pat as [|p pat]; [done|]. intros _. apply occurrences_here. Qed.

Lemma sanitize_free name : Forall (fun c => c <> ch "<") (sanitize name).
Proof.
  eapply Forall_impl; [apply sanitize_clean|].
  intros c [Hc _] ->. vm_compute in Hc. discriminate.
Qed.

Lemma coords_str_nonempty p : coords_str p <> [].
Proof.
  destruct p as [[x y] z]. unfold coords_str.
  destruct (str_of_float x); discriminate.
Qed.

End Rendering.

Section RenderingClaim.
Context {rt : PyRuntime}.

Local Ltac scan :=
  first [ apply no_start_lt; [reflexivity | assumption]
        | vm_compute; reflexivity ].

Local Ltac split_at pat s H :=
  let b := fresh "before" in
  let a := fresh "after" in
  pose proof (pieces_eq pat s ltac:(vm_compute; discriminate)) as H;
  set (b := piece_before pat s) in H;
  set (a := piece_after pat s) in H;
  rewrite H; clear H.

Local Ltac skip_to_tag :=
  repeat (rewrite partition_skip by scan);
  rewrite partition_here;
  cbn [fmap option_fmap option_map fst snd].

Lemma all_spaces x :
  forallb isspace x = true -> Forall (fun c => isspace c = true) x.
Proof.
  induction x as [|c x IH]; [constructor|]. cbn [forallb].
  intros H. apply andb_true_iff in H as [Hc Hx]. constructor; auto.
Qed.

Section Document.
Variables (base target : point) (name : pystr).
Hypothesis Hbase : plain_text (coords_str base) = true.
Hypothesis Htarget : plain_text (coords_str target) = true.

Let doc := create_dji_mission_kml base target name.

Lemma one_placemark : occurrences (py "<Placemark>") doc = 1.
Proof.
  pose proof (sanitize_free name) as Hclean.
  pose proof (plain_text_free _ Hbase) as Hb.
  pose proof (plain_text_free _ Htarget) as Ht.
  unfold doc, create_dji_mission_kml. cbv zeta.
  split_at (py "<Placemark>") kml_styles Hs.
  rewrite <- (app_nil_r kml_tail), <- !app_assoc.
  repeat (rewrite occurrences_skip by scan).
  rewrite occurrences_at by discriminate.
  repeat (rewrite occurrences_skip by scan).
  reflexivity.
Qed.

Lemma one_line_string : occurrences (py "<LineString>") doc = 1.
Proof.
  pose proof (sanitize_free name) as Hclean.
  pose proof (plain_text_free _ Hbase) as Hb.
  pose proof (plain_text_free _ Htarget) as Ht.
  unfold doc, create_dji_mission_kml. cbv zeta.
  split_at (py "<LineString>") kml_line_open Hs.
  rewrite <- (app_nil_r kml_tail), <- !app_assoc.
  repeat (rewrite occurrences_skip by scan).
  rewrite occurrences_at by discriminate.
  repeat (rewrite occurrences_skip by scan).
  reflexivity.
Qed.

Lemma two_vertices :
  line_vertices doc = Some [coords_str base; coords_str target].
Proof.
  pose proof (sanitize_free name) as Hclean.
  pose proof (plain_text_free _ Hbase) as Hb.
  pose proof (plain_text_free _ Htarget) as Ht.
  unfold line_vertices, between, doc, create_dji_mission_kml. cbv zeta.
  split_at (py "<coordinates>") kml_line_open Hl.
  split_at (py "</coordinates>") kml_tail Hk.
  rewrite <- !app_assoc.
  skip_to_tag. skip_to_tag. f_equal.
  rewrite words_spaces by (apply all_spaces; vm_compute; reflexivity).
  rewrite words_word;
    [| apply coords_str_nonempty | by apply plain_text_nospace | reflexivity ].
  rewrite (words_spaces (py " ")) by (apply all_spaces; vm_compute; reflexivity).
  rewrite words_word;
    [| apply coords_str_nonempty | by apply plain_text_nospace
     | by vm_compute ].
  rewrite words_spaces by (apply all_spaces; vm_compute; reflexivity).
  reflexivity.
Qed.

Lemma feature_name_clean : feature_name doc = Some (sanitize name).
Proof.
  pose proof (sanitize_free name) as Hclean.
  unfold feature_name, between, doc, create_dji_mission_kml. cbv zeta.
  split_at (py "<Placemark>") kml_styles Hs.
  split_at (py "<name>") after Hn.
  split_at (py "</name>") kml_line_open Hl.
  rewrite <- !app_assoc.
  skip_to_tag. skip_to_tag. skip_to_tag.
  by rewrite app_nil_r.
Qed.

Lemma document_title_clean :
  document_title doc = Some (sanitize name ++ py ".kml").
Proof.
  pose proof (sanitize_free name) as Hclean.
  unfold document_title, between, doc, create_dji_mission_kml. cbv zeta.
  split_at (py "<name>") kml_head Hh.
  split_at (py "</name>") kml_styles Hs.
  rewrite <- !app_assoc.
  skip_to_tag. skip_to_tag.
  by rewrite app_nil_r.
Qed.

End Document.

(** C9 (amended). The rendered document holds exactly one feature, a line
    string whose two vertices are the base and the target written as
    [lon,lat,elev] and separated by whitespace; the feature is named by the
    sanitized display name, and the document is titled by the sanitized
    display name followed by [.kml]. The numbers are assumed to be formatted
    without whitespace and without [<], as Python formats them. *)
Theorem C9_rendered_document (blon blat belev tlon tlat telev : float)
  (name : pystr) :
  let base := (blon, blat, belev) in
  let target := (tlon, tlat, telev) in
  let doc := create_dji_mission_kml base target name in
  plain_text (coords_str base) = true ->
  plain_text (coords_str target) = true ->
  occurrences (py "<Placemark>") doc = 1
  /\ occurrences (py "<LineString>") doc = 1
  /\ line_vertices doc
     = Some [str_of_float blon ++ py "," ++ str_of_float blat ++ py ","
               ++ str_of_float belev;
             str_of_float tlon ++ py "," ++ str_of_float tlat ++ py ","
               ++ str_of_float telev]
  /\ feature_name doc = Some (sanitize name)
  /\ document_title doc = Some (sanitize name ++ py ".kml").
Proof.
  intros base target doc Hb Ht. repeat split.
  - by apply one_placemark.
  - by apply one_line_string.
  - by apply two_vertices.
  - apply feature_name_clean.
  - apply document_title_clean.
Qed.

End RenderingClaim.

Lemma C9_title_counterexample :
  document_title
    (create_dji_mission_kml (int_point 1 2 3) (int_point 4 5 6) (py "Tower A"))
  = Some (py "Tower_A.kml")
  /\ sanitize (rt := int_runtime) (py "Tower A") = py "Tower_A"
  /\ py "Tower_A.kml" <> py "Tower_A".
Proof. vm_compute. repeat split. discriminate. Qed.

Lemma C9_rendered_document_witness :
  line_vertices
    (create_dji_mission_kml (int_point 1 2 3) (int_point 4 5 6) (py "Tower A"))
  = Some [py "1,2,3"; py "4,5,6"].
Proof.
  exact (proj1 (proj2 (proj2
           (C9_rendered_document (rt := int_runtime) 1%Z 2%Z 3%Z 4%Z 5%Z 6%Z
              (py "Tower A") eq_refl eq_refl)))).
Defined.

Section SanitizeMore.
Context {rt : PyRuntime}.

Lemma dropwhile_all p s :
  Forall (fun c => p c = true) s -> dropwhile p s = [].
Proof. induction 1 as [|c s Hc _ IH]; [reflexivity|]. cbn [dropwhile]. by rewrite Hc. Qed.

Lemma dropwhile_nil_inv p s :
  dropwhile p s = [] -> Forall (fun c => p c = true) s.
Proof.
  induction s as [|c s IH]; [constructor|]. cbn [dropwhile].
  destruct (p c) eqn:E; [|discriminate]. intros H. constructor; auto.
Qed.

Lemma dropwhile_head p s :
  match dropwhile p s with [] => True | c :: _ => p c = false end.
Proof.
  induction s as [|c s IH]; [exact I|]. cbn [dropwhile].
  destruct (p c) eqn:E; [exact IH | exact E].
Qed.

Lemma dropwhile_fixed p s :
  match s with [] => True | c :: _ => p c = false end -> dropwhile p s = s.
Proof. destruct s as [|c s]; [reflexivity|]. cbn [dropwhile]. by intros ->. Qed.

Lemma dropwhile_snoc_keep p l h :
  p h = false -> exists z, dropwhile p (l ++ [h]) = z ++ [h].
Proof.
  intros Hh. induction l as [|c l [z IH]]; cbn [app dropwhile].
  - rewrite Hh. by exists [].
  - destruct (p c); [by exists z | by exists (c :: l)].
Qed.

Lemma rstrip_keeps_head h t :
  isspace h = false -> exists t', rstrip (h :: t) = h :: t'.
Proof.
  intros Hh. unfold rstrip. cbn [rev].
  destruct (dropwhile_snoc_keep isspace (rev t) h Hh) as [z ->].
  rewrite rev_app_distr. cbn [rev app]. by eexists.
Qed.

Lemma rstrip_rstrip s : rstrip (rstrip s) = rstrip s.
Proof.
  unfold rstrip. rewrite rev_involutive. f_equal.
  apply dropwhile_fixed, dropwhile_head.
Qed.

Lemma lstrip_strip s : lstrip (strip s) = strip s.
Proof.
  unfold strip. pose proof (dropwhile_head isspace s) as Hh. fold (lstrip s) in Hh.
  destruct (lstrip s) as [|h t]; [reflexivity|].
  destruct (rstrip_keeps_head h t Hh) as [t' ->].
  unfold lstrip. cbn [dropwhile]. by rewrite Hh.
Qed.

(** [strip] is idempotent. *)
Lemma strip_strip s : strip (strip s) = strip s.
Proof.
  unfold strip at 1. rewrite lstrip_strip. unfold strip. apply rstrip_rstrip.
Qed.

Lemma strip_head s :
  match strip s with [] => True | c :: _ => isspace c = false end.
Proof.
  rewrite <- lstrip_strip. apply dropwhile_head.
Qed.

Lemma strip_nospace s : Forall (fun c => isspace c = false) s -> strip s = s.
Proof.
  intros H. unfold strip, rstrip, lstrip.
  assert (Hd : forall x, Forall (fun c => isspace c = false) x ->
                 dropwhile isspace x = x).
  { intros x Hx. apply dropwhile_fixed. by destruct Hx. }
  rewrite (Hd s H), (Hd (rev s)) by (by apply Forall_rev).
  apply rev_involutive.
Qed.

Lemma strip_nil_iff s : strip s = [] <-> Forall (fun c => isspace c = true) s.
Proof.
  split.
  - intros H. unfold strip in H. pose proof (dropwhile_head isspace s) as Hh.
    fold (lstrip s) in Hh. destruct (lstrip s) as [|h t] eqn:E.
    + by apply dropwhile_nil_inv.
    + destruct (rstrip_keeps_head h t Hh) as [t' Ht]. by rewrite Ht in H.
  - intros H. unfold strip, lstrip. by rewrite (dropwhile_all _ _ H).
Qed.

Lemma length_strip s : length (strip s) <= length s.
Proof.
  unfold strip, rstrip, lstrip. rewrite length_rev.
  etransitivity; [apply length_dropwhile|]. rewrite length_rev.
  apply length_dropwhile.
Qed.

Lemma isspace_spec_replace c : isspace (spec_replace c) = isspace c.
Proof.
  unfold spec_replace. destruct (spec_allowed c) eqn:E; [reflexivity|].
  unfold spec_allowed in E. apply orb_false_iff in E as [_ ->]. reflexivity.
Qed.

Lemma spec_collapse_nospace s :
  Forall (fun c => isspace c = false) s -> spec_collapse s = s.
Proof.
  induction 1 as [|c s Hc _ IH]; [reflexivity|].
  by rewrite spec_collapse_cons, Hc, IH.
Qed.

Lemma length_spec_collapse s : length (spec_collapse s) <= length s.
Proof.
  induction s as [|c s IH]; [reflexivity|]. rewrite spec_collapse_cons.
  destruct (isspace c).
  - destruct s as [|c' s']; [reflexivity|].
    destruct (isspace c'); cbn [length] in *; lia.
  - cbn [length]. lia.
Qed.

Lemma spec_collapse_nil s : spec_collapse s = [] -> s = [].
Proof.
  induction s as [|c s IH]; [reflexivity|]. rewrite spec_collapse_cons.
  destruct (isspace c); [|discriminate].
  destruct s as [|c' s']; [discriminate|].
  destruct (isspace c'); [|discriminate].
  intros H. by apply IH in H.
Qed.

Lemma clean_allowed c : clean_char c = true -> spec_allowed c = true.
Proof. unfold spec_allowed, clean_char. intros ->. reflexivity. Qed.

(** A name made of alphanumerics, underscores and hyphens is left as it is. *)
Lemma sanitize_fixed s :
  Forall (fun c => clean_char c = true /\ isspace c = false) s -> sanitize s = s.
Proof.
  intros H. rewrite sanitize_spec. unfold spec_sanitize.
  assert (Hmap : map spec_replace s = s).
  { induction H as [|c s [Hc _] _ IH]; [reflexivity|]. cbn [map].
    rewrite IH. unfold spec_replace. by rewrite (clean_allowed _ Hc). }
  assert (Hns : Forall (fun c => isspace c = false) s).
  { eapply Forall_impl; [exact H|]. by intros c [_ ?]. }
  by rewrite Hmap, (strip_nospace _ Hns), (spec_collapse_nospace _ Hns).
Qed.

Lemma sanitize_nil_iff s :
  sanitize s = [] <-> Forall (fun c => isspace c = true) s.
Proof.
  rewrite sanitize_spec. unfold spec_sanitize. split.
  - intros H. apply spec_collapse_nil, strip_nil_iff in H.
    induction s as [|c s IH]; [constructor|]. cbn [map] in H.
    inversion H as [|? ? Hc Hs]; subst. rewrite isspace_spec_replace in Hc.
    constructor; auto.
  - intros H.
    assert (Hm : Forall (fun c => isspace c = true) (map spec_replace s)).
    { induction H as [|c s Hc _ IH]; cbn [map]; constructor; [|exact IH].
      by rewrite isspace_spec_replace. }
    apply strip_nil_iff in Hm. by rewrite Hm.
Qed.

(** X1. Sanitization is idempotent and never lengthens a name; a name that
    is already made of alphanumerics, underscores and hyphens is returned
    unchanged. *)
Theorem X1_sanitize_idempotent name :
  sanitize (sanitize name) = sanitize name
  /\ length (sanitize name) <= length name
  /\ (Forall (fun c => clean_char c = true /\ isspace c = false) name ->
      sanitize name = name).
Proof.
  split; [apply sanitize_fixed, sanitize_clean|]. split; [|apply sanitize_fixed].
  rewrite sanitize_spec. unfold spec_sanitize.
  etransitivity; [apply length_spec_collapse|].
  etransitivity; [apply length_strip|]. by rewrite length_map.
Qed.

(** X2. The sanitized name is empty exactly when the name is empty or
    made of whitespace only: every other name keeps at least one
    character. *)
Theorem X2_sanitize_empty_iff_blank name :
  sanitize name = [] <-> Forall (fun c => isspace c = true) name.
Proof. apply sanitize_nil_iff. Qed.

End SanitizeMore.

Lemma X1_sanitize_idempotent_witness :
  sanitize (rt := int_runtime) (py "Tower_3-north") = py "Tower_3-north".
Proof.
  refine (proj2 (proj2 (X1_sanitize_idempotent (rt := int_runtime)
                          (py "Tower_3-north"))) _).
  repeat constructor.
Defined.

Section LabelShape.
Context {rt : PyRuntime}.

(** X3. A label returned by the extractor is not empty, has no leading or
    trailing whitespace, and its sanitized form, used in the file name, is
    not empty either. *)
Theorem X3_label_trimmed html_text label :
  extract_html_table_attribute_from_text html_text = Return (Some label) ->
  label <> [] /\ strip label = label /\ sanitize label <> [].
Proof.
  rewrite extract_eq. unfold extract_try.
  destruct html_text as [|c0 t0]; [discriminate|].
  destruct (re_search _ _) as [m|]; [|discriminate].
  destruct (strip (re_sub tag_pattern [] (strip (group1 m)))) as [|c l] eqn:E;
    [discriminate|].
  intros [= <-]. split; [discriminate|]. split.
  - rewrite <- E. apply strip_strip.
  - intros H. apply sanitize_nil_iff in H. inversion H as [|? ? Hc _]; subst.
    pose proof (strip_head (re_sub tag_pattern [] (strip (group1 m)))) as Hh.
    rewrite E in Hh. congruence.
Qed.

End LabelShape.

Lemma X3_label_trimmed_witness :
  strip (py "Tower A") = py "Tower A".
Proof.
  refine (proj1 (proj2 (X3_label_trimmed (rt := int_runtime)
                          (py tower_table) (py "Tower A") _))).
  vm_compute. reflexivity.
Defined.

Section TwoParsersProofs.
Context {rt : PyRuntime}.

Lemma parse_kml_point_try_eq m :
  parse_kml_point_try (Parsed m) =
  match text_of (find_kml "coordinates" m) with
  | Some t =>
      if decide (2 <= length (split (ch ",") (strip t)))
      then p ← floats_of_coords (split (ch ",") (strip t)); Return (Some p)
      else Return None
  | None => Return None
  end.
Proof. reflexivity. Qed.

(** On every marker the loop body of the bulk parser raises when the body of
    single-point mode raises, and otherwise materialises a record exactly
    when single-point mode returns a point, with that point. *)
Lemma placemark_step_vs_try i m :
  match parse_kml_point_try (Parsed m) with
  | Raise e => placemark_step i m = Raise e
  | Return o =>
      exists od, placemark_step i m = Return od /\ pd_coordinates <$> od = o
  end.
Proof.
  rewrite parse_kml_point_try_eq. unfold placemark_step.
  destruct (text_of (find_kml "coordinates" m)) as [t|]; [|by exists None].
  cbv zeta. destruct (decide _); [|by exists None].
  destruct (floats_of_coords _) as [p|e]; [|by rewrite !bind_Raise].
  rewrite !bind_Return, extract_eq.
  destruct (extract_try_returns
              (default [] (text_of (find_kml "description" m)))) as [v ->].
  rewrite bind_Return. eexists. split; reflexivity.
Qed.

Lemma single_point_try m o :
  parse_kml_point_try (Parsed m) = Return o -> single_point m = o.
Proof. unfold single_point, parse_kml_point. by intros ->. Qed.

Lemma placemark_step_name i m d :
  placemark_step i m = Return (Some d) ->
  pd_name d = default (default_name i) (text_of (find_kml "name" m)).
Proof.
  unfold placemark_step.
  destruct (text_of (find_kml "coordinates" m)) as [t|]; [|discriminate].
  cbv zeta. destruct (decide _); [|discriminate].
  destruct (floats_of_coords _) as [p|e]; [|discriminate].
  rewrite bind_Return, extract_eq.
  destruct (extract_try_returns
              (default [] (text_of (find_kml "description" m)))) as [v ->].
  rewrite bind_Return. by intros [= <-].
Qed.

Lemma placemark_loop_coordinates ms : forall start points,
  map pd_coordinates (fst (placemark_loop (enumerate_from start ms) points))
  = map pd_coordinates points ++ omap single_point (until_raise ms).
Proof.
  induction ms as [|m ms IH]; intros start points.
  - cbn. by rewrite app_nil_r.
  - cbn [enumerate_from placemark_loop until_raise]. unfold marker_raises.
    pose proof (placemark_step_vs_try start m) as H.
    destruct (parse_kml_point_try (Parsed m)) as [o|e] eqn:E.
    + destruct H as (od & -> & Hod).
      change (omap single_point (m :: until_raise ms))
        with (match single_point m with
              | Some p => p :: omap single_point (until_raise ms)
              | None => omap single_point (until_raise ms)
              end).
      rewrite (single_point_try _ _ E).
      destruct od as [d|]; cbn in Hod; subst o; rewrite IH; [|reflexivity].
      by rewrite map_app, <- app_assoc.
    + rewrite H. cbn. by rewrite app_nil_r.
Qed.

(** X4. The bulk parser returns, in document order, the point that
    single-point mode returns on each marker, for the markers before the
    first one on which parsing raises. *)
Theorem X4_bulk_agrees_with_single_point root :
  map pd_coordinates (parse_all_kml_points (Parsed root))
  = omap single_point (until_raise (placemarks_of root)).
Proof.
  unfold parse_all_kml_points. cbn [ET_parse].
  by rewrite placemark_loop_coordinates.
Qed.

Lemma placemark_loop_names ms : forall start points,
  Forall (fun m => is_Some (single_point m)
                   /\ text_of (find_kml "name" m) = None) ms ->
  map pd_name (fst (placemark_loop (enumerate_from start ms) points))
  = map pd_name points ++ map default_name (seq start (length ms)).
Proof.
  induction ms as [|m ms IH]; intros start points Hms.
  - cbn. by rewrite app_nil_r.
  - inversion Hms as [|? ? [[p Hp] Hname] Hrest]; subst.
    cbn [enumerate_from placemark_loop length seq map].
    pose proof (placemark_step_vs_try start m) as H.
    unfold single_point, parse_kml_point in Hp.
    destruct (parse_kml_point_try (Parsed m)) as [o|e] eqn:E.
    + cbn in Hp. subst o. destruct H as (od & Hstep & Hod).
      destruct od as [d|]; [|discriminate]. rewrite Hstep.
      rewrite (IH _ _ Hrest), map_app, <- app_assoc. cbn [map app].
      by rewrite (placemark_step_name _ _ _ Hstep), Hname.
    + destruct e; discriminate.
Qed.

(** X5. When every marker of a document yields a point and none declares
    a name, the names are [Point_1] to [Point_N] in document order. *)
Theorem X5_default_names root :
  Forall (fun m => is_Some (single_point m)
                   /\ text_of (find_kml "name" m) = None) (placemarks_of root) ->
  map pd_name (parse_all_kml_points (Parsed root))
  = map (fun i => py "Point_" ++ str_of_nat (i + 1))
        (seq 0 (length (placemarks_of root))).
Proof.
  intros H. unfold parse_all_kml_points. cbn [ET_parse].
  by rewrite (placemark_loop_names _ 0 [] H).
Qed.

Lemma placemark_loop_shape ps : forall points,
  Forall (fun d => pd_name d <> []) points ->
  Forall (fun d => pd_name d <> []) (fst (placemark_loop ps points))
  /\ length (fst (placemark_loop ps points)) <= length points + length ps.
Proof.
  induction ps as [|[i m] ps IH]; intros points Hpts.
  - cbn. split; [exact Hpts | lia].
  - cbn [placemark_loop length]. destruct (placemark_step i m) as [[d|]|e] eqn:E.
    + destruct (IH (points ++ [d])) as [Hn Hl].
      * apply Forall_app. split; [exact Hpts|]. constructor; [|constructor].
        rewrite (placemark_step_name _ _ _ E). unfold text_of, default_name.
        destruct (find_kml "name" m) as [e|]; [|discriminate].
        destruct (text e) as [[|c t]|]; discriminate.
      * split; [exact Hn|]. rewrite length_app in Hl. cbn [length] in Hl. lia.
    + destruct (IH points Hpts) as [Hn Hl]. split; [exact Hn | lia].
    + cbn. split; [exact Hpts | lia].
Qed.

Lemma length_enumerate_from {A} (l : list A) start :
  length (enumerate_from start l) = length l.
Proof.
  revert start. induction l as [|x l IH]; intros start; [reflexivity|].
  cbn [enumerate_from length]. by rewrite IH.
Qed.

(** X6. Whatever the file, the bulk parser returns at most one record per
    marker, and every record has a name that is not empty and a label that
    is absent or not empty. *)
Theorem X6_records_well_formed kml_file_path :
  Forall (fun d => pd_name d <> [] /\ pd_table_attribute d <> Some [])
         (parse_all_kml_points kml_file_path)
  /\ length (parse_all_kml_points kml_file_path)
     <= match kml_file_path with
        | Unparsable => 0
        | Parsed root => length (placemarks_of root)
        end.
Proof.
  split.
  - apply Forall_and. split; [|apply parse_all_labelled].
    unfold parse_all_kml_points. destruct kml_file_path as [|root];
      cbn [ET_parse]; [constructor|].
    apply placemark_loop_shape. constructor.
  - unfold parse_all_kml_points. destruct kml_file_path as [|root];
      cbn [ET_parse]; [reflexivity|].
    destruct (placemark_loop_shape (enumerate_from 0 (placemarks_of root)) [])
      as [_ Hl]; [constructor|].
    by rewrite length_enumerate_from in Hl.
Qed.

(** X7. Components after the third are never converted: a coordinate text
    with more than three components yields the point of its first three,
    whatever follows them. *)
Theorem X7_extra_components_ignored (e : element) (a b c : pystr)
  (more : list pystr) (lon lat alt : float) :
  coords_of e = Some (a :: b :: c :: more) ->
  float_of_str a = Some lon -> float_of_str b = Some lat ->
  float_of_str c = Some alt ->
  parse_kml_point (Parsed e) = Return (Some (lon, lat, alt))
  /\ forall i, exists d, placemark_step i e = Return (Some d)
                         /\ pd_coordinates d = (lon, lat, alt).
Proof.
  intros He Ha Hb Hc.
  pose proof (floats_of_coords_3 _ _ _ more _ _ _ Ha Hb Hc) as Hp.
  split.
  - eapply parse_kml_point_coords; [exact He | cbn [length]; lia | exact Hp].
  - intros i.
    destruct (placemark_step_point i e _ _ He ltac:(cbn [length]; lia) Hp)
      as (d & Hd & Hcoord & _).
    by exists d.
Qed.

End TwoParsersProofs.

Section SkippedMarker.
Context {rt : PyRuntime}.

Lemma short_marker_try m :
  short_coordinates m -> parse_kml_point_try (Parsed m) = Return None.
Proof.
  unfold short_coordinates, coords_of. rewrite parse_kml_point_try_eq.
  destruct (text_of (find_kml "coordinates" m)) as [t|]; [|reflexivity].
  cbn [fmap option_fmap option_map]. intros H.
  by rewrite decide_False by lia.
Qed.

Lemma until_raise_without pre m post :
  short_coordinates m ->
  omap single_point (until_raise (pre ++ m :: post))
  = omap single_point (until_raise (pre ++ post)).
Proof.
  intros Hm. pose proof (short_marker_try _ Hm) as Htry.
  induction pre as [|x pre IH]; cbn [app until_raise].
  - unfold marker_raises. rewrite Htry.
    change (omap single_point (m :: ?l))
      with (match single_point m with
            | Some p => p :: omap single_point l
            | None => omap single_point l
            end).
    by rewrite (single_point_try _ _ Htry).
  - destruct (marker_raises x); [reflexivity|].
    change (omap single_point (x :: ?l))
      with (match single_point x with
            | Some p => p :: omap single_point l
            | None => omap single_point l
            end).
    by rewrite IH.
Qed.

Lemma placemark_loop_prefix ps : forall points,
  exists more, fst (placemark_loop ps points) = points ++ more.
Proof.
  induction ps as [|[i m] ps IH]; intros points.
  - exists []. cbn. by rewrite app_nil_r.
  - cbn [placemark_loop]. destruct (placemark_step i m) as [[d|]|e].
    + destruct (IH (points ++ [d])) as [more ->]. exists (d :: more).
      by rewrite <- app_assoc.
    + apply IH.
    + exists []. cbn. by rewrite app_nil_r.
Qed.

(** The record of a marker that is reached and yields a point: where it
    stands in the output, and that it is made with the index of the marker
    among all markers. *)
Lemma placemark_loop_record ms : forall start points i pm,
  ms !! i = Some pm ->
  Forall (fun x => marker_raises x = false) (take i ms) ->
  is_Some (single_point pm) ->
  exists d,
    fst (placemark_loop (enumerate_from start ms) points)
      !! (length points + length (omap single_point (take i ms))) = Some d
    /\ placemark_step (start + i) pm = Return (Some d)
    /\ Some (pd_coordinates d) = single_point pm.
Proof.
  induction ms as [|x ms IH]; intros start points i pm Hi Hpre Hpm; [discriminate|].
  pose proof (placemark_step_vs_try start x) as Hx.
  destruct i as [|i].
  - injection Hi as ->. destruct Hpm as [p Hp].
    unfold single_point, parse_kml_point in Hp.
    destruct (parse_kml_point_try (Parsed pm)) as [o|e] eqn:E;
      [|destruct e; discriminate].
    cbn in Hp. subst o. destruct Hx as (od & Hstep & Hod).
    destruct od as [d|]; [|discriminate]. exists d.
    cbn [enumerate_from placemark_loop take]. rewrite Hstep.
    destruct (placemark_loop_prefix (enumerate_from (S start) ms) (points ++ [d]))
      as [more ->].
    split; [|split].
    + cbn [omap list_omap length]. rewrite Nat.add_0_r, <- app_assoc.
      by rewrite lookup_app_r, Nat.sub_diag by lia.
    + by rewrite Nat.add_0_r.
    + rewrite (single_point_try _ _ E). cbn in Hod. by injection Hod as ->.
  - change ((x :: ms) !! S i) with (ms !! i) in Hi.
    change (take (S i) (x :: ms)) with (x :: take i ms) in *.
    inversion Hpre as [|? ? Hxr Hrest]; subst. unfold marker_raises in Hxr.
    destruct (parse_kml_point_try (Parsed x)) as [o|e] eqn:E; [|discriminate].
    destruct Hx as (od & Hstep & Hod).
    change (omap single_point (x :: take i ms))
      with (match single_point x with
            | Some p => p :: omap single_point (take i ms)
            | None => omap single_point (take i ms)
            end).
    rewrite (single_point_try _ _ E).
    cbn [enumerate_from placemark_loop]. rewrite Hstep.
    replace (start + S i) with (S start + i) by lia.
    destruct od as [dx|]; cbn in Hod; subst o.
    + destruct (IH (S start) (points ++ [dx]) i pm Hi Hrest Hpm)
        as (d & Hd & Hs & Hc).
      exists d. split; [|by split]. rewrite <- Hd. f_equal.
      rewrite length_app. cbn [length]. lia.
    + exact (IH (S start) points i pm Hi Hrest Hpm).
Qed.

(** C2 (amended). A marker with fewer than two coordinate components is
    left out of the output, which holds the same points as without it; yet
    the marker keeps its place in the numbering: an unnamed marker that
    comes after it, is reached and yields a point is called [Point_<n>]
    where [n] is its 1-based position among all markers of the document,
    the skipped one included. *)
Theorem C2_short_marker_skipped_keeps_ordinal root pre m post :
  placemarks_of root = pre ++ m :: post ->
  short_coordinates m ->
  (forall root', placemarks_of root' = pre ++ post ->
     map pd_coordinates (parse_all_kml_points (Parsed root))
     = map pd_coordinates (parse_all_kml_points (Parsed root')))
  /\ (forall j pm,
        post !! j = Some pm ->
        Forall (fun x => marker_raises x = false) (pre ++ take j post) ->
        is_Some (single_point pm) ->
        text_of (find_kml "name" pm) = None ->
        exists d,
          parse_all_kml_points (Parsed root)
            !! length (omap single_point (pre ++ take j post)) = Some d
          /\ pd_name d = py "Point_" ++ str_of_nat (length pre + j + 2)
          /\ Some (pd_coordinates d) = single_point pm).
Proof.
  intros Hroot Hm. split.
  - intros root' Hroot'. unfold parse_all_kml_points. cbn [ET_parse].
    rewrite !placemark_loop_coordinates, Hroot, Hroot'.
    by rewrite until_raise_without.
  - intros j pm Hj Hpre Hpm Hname.
    assert (Hi : (pre ++ m :: post) !! (length pre + S j) = Some pm).
    { rewrite lookup_app_r by lia.
      by replace (length pre + S j - length pre) with (S j) by lia. }
    assert (Htake : take (length pre + S j) (pre ++ m :: post)
                    = pre ++ m :: take j post).
    { rewrite take_app_add'. reflexivity. reflexivity. }
    pose proof (short_marker_try _ Hm) as Htry.
    assert (Hseen : Forall (fun x => marker_raises x = false)
                      (take (length pre + S j) (pre ++ m :: post))).
    { rewrite Htake. apply Forall_app in Hpre as [H1 H2].
      apply Forall_app. split; [exact H1|]. constructor; [|exact H2].
      unfold marker_raises. by rewrite Htry. }
    destruct (placemark_loop_record _ 0 [] _ _ Hi Hseen Hpm)
      as (d & Hd & Hstep & Hc).
    exists d. split; [|split; [|exact Hc]].
    + unfold parse_all_kml_points. cbn [ET_parse]. rewrite Hroot.
      rewrite <- Hd. cbn [length Nat.add]. f_equal. rewrite Htake.
      rewrite !omap_app.
      change (omap single_point (m :: ?l))
        with (match single_point m with
              | Some p => p :: omap single_point l
              | None => omap single_point l
              end).
      by rewrite (single_point_try _ _ Htry).
    + rewrite (placemark_step_name _ _ _ Hstep), Hname. cbn [default Nat.add].
      unfold default_name. do 2 f_equal. lia.
Qed.

End SkippedMarker.

Lemma C2_short_marker_witness :
  exists d,
    parse_all_kml_points (rt := int_runtime) (Parsed short_then_good) !! 0 = Some d
    /\ pd_name d = py "Point_2"
    /\ Some (pd_coordinates d) = single_point (marker "" "1,2" "").
Proof.
  refine (proj2 (C2_short_marker_skipped_keeps_ordinal (rt := int_runtime)
                   short_then_good [] (marker "" "5" "") [marker "" "1,2" ""]
                   eq_refl _) 0 (marker "" "1,2" "") eq_refl _ _ eq_refl).
  - unfold short_coordinates. vm_compute. lia.
  - constructor.
  - by eexists.
Defined.

Lemma X5_default_names_witness :
  map pd_name
    (parse_all_kml_points (rt := int_runtime)
       (Parsed (document [marker "" "1,2" ""; marker "" "3,4,5" ""])))
  = [py "Point_1"; py "Point_2"].
Proof.
  refine (X5_default_names (rt := int_runtime)
            (document [marker "" "1,2" ""; marker "" "3,4,5" ""]) _).
  repeat constructor; by eexists.
Defined.

Lemma X7_extra_components_witness :
  parse_kml_point (rt := int_runtime) (Parsed (marker "" "1,2,3,junk" ""))
  = Return (Some (1, 2, 3)%Z).
Proof.
  exact (proj1 (X7_extra_components_ignored (rt := int_runtime)
                  (marker "" "1,2,3,junk" "") (py "1") (py "2") (py "3")
                  [py "junk"] 1%Z 2%Z 3%Z eq_refl eq_refl eq_refl eq_refl)).
Defined.

Section NameOrder.

Lemma pystr_leb_refl a : pystr_leb a a = true.
Proof.
  induction a as [|x a IH]; [reflexivity|]. cbn [pystr_leb].
  by rewrite N.ltb_irrefl.
Qed.

Lemma pystr_leb_total a : forall b, pystr_leb a b = true \/ pystr_leb b a = true.
Proof.
  induction a as [|x a IH]; intros [|y b]; cbn [pystr_leb]; auto.
  destruct (N.ltb_spec x y), (N.ltb_spec y x); auto; lia.
Qed.

Lemma pystr_leb_trans a : forall b c,
  pystr_leb a b = true -> pystr_leb b c = true -> pystr_leb a c = true.
Proof.
  induction a as [|x a IH]; intros [|y b] [|z c]; cbn [pystr_leb]; auto;
    try discriminate.
  destruct (N.ltb_spec x y), (N.ltb_spec y x), (N.ltb_spec y z),
    (N.ltb_spec z y), (N.ltb_spec x z), (N.ltb_spec z x);
    try discriminate; try reflexivity; try lia.
  apply IH.
Qed.

Lemma pystr_leb_antisym a : forall b,
  pystr_leb a b = true -> pystr_leb b a = true -> a = b.
Proof.
  induction a as [|x a IH]; intros [|y b]; cbn [pystr_leb]; auto;
    try discriminate.
  destruct (N.ltb_spec x y), (N.ltb_spec y x); try discriminate; try lia.
  intros H1 H2. f_equal; [lia | by apply IH].
Qed.

Context {A : Type}.
Implicit Types (x : pystr * A) (l : list (pystr * A)).

#[global] Instance name_le_trans : Transitive (@name_le A).
Proof. intros x y z. unfold name_le. apply pystr_leb_trans. Qed.

Lemma insert_sorted_perm x l : insert_sorted x l ≡ₚ x :: l.
Proof.
  induction l as [|y l IH]; [reflexivity|]. cbn [insert_sorted].
  destruct (pystr_leb (fst y) (fst x)); [|reflexivity].
  rewrite IH. apply Permutation_swap.
Qed.

Lemma sorted_perm l : sorted l ≡ₚ l.
Proof.
  unfold sorted. transitivity (rev l); [|symmetry; apply Permutation_rev].
  induction (rev l) as [|x r IH]; [reflexivity|].
  cbn [foldr]. by rewrite insert_sorted_perm, IH.
Qed.

Lemma insert_sorted_Sorted x l :
  Sorted name_le l -> Sorted name_le (insert_sorted x l).
Proof.
  induction 1 as [|y l Hl IH Hy]; [repeat constructor|].
  cbn [insert_sorted]. destruct (pystr_leb (fst y) (fst x)) eqn:E.
  - constructor; [exact IH|].
    destruct l as [|z l]; cbn [insert_sorted].
    + by constructor.
    + destruct (pystr_leb (fst z) (fst x)); constructor; [|exact E].
      by inversion Hy.
  - constructor; [by constructor|]. constructor.
    destruct (pystr_leb_total (fst x) (fst y)) as [H|H]; [exact H|congruence].
Qed.

(** [sorted] puts the entries in the order of their names. *)
Lemma sorted_Sorted l : Sorted name_le (sorted l).
Proof.
  unfold sorted. induction (rev l) as [|x r IH]; [constructor|].
  cbn [foldr]. by apply insert_sorted_Sorted.
Qed.


(** With distinct names, the order of the names leaves one way to sort. *)
Lemma Sorted_names_unique l l' :
  NoDup (map fst l) -> Sorted name_le l -> Sorted name_le l' -> l ≡ₚ l' -> l = l'.
Proof.
  intros Hnd Hl Hl' Hp. apply (Sorted_unique_strong name_le); try assumption.
  intros x1 x2 H1 H2 H12 H21.
  assert (Hfst : fst x1 = fst x2) by (by apply pystr_leb_antisym).
  rewrite <- Hp in H2.
  change (map fst l) with (fst <$> l) in Hnd.
  apply list_elem_of_lookup in H1 as [i Hi]. apply list_elem_of_lookup in H2 as [j Hj].
  assert (i = j) as ->; [|congruence].
  eapply NoDup_lookup; [exact Hnd | |];
    rewrite list_lookup_fmap; [by rewrite Hi | by rewrite Hj, Hfst].
Qed.

End NameOrder.

Section InputDirectory.
Context {rt : PyRuntime}.

Lemma NoDup_names_filter {A} (P : pystr * A -> Prop) `{forall x, Decision (P x)}
  (l : list (pystr * A)) :
  NoDup (map fst l) -> NoDup (map fst (filter P l)).
Proof.
  induction l as [|x l IH]; [by intros|]. cbn [map]. intros Hnd.
  apply NoDup_cons in Hnd as [Hx Hl]. rewrite filter_cons.
  destruct (decide (P x)); [|by apply IH]. cbn [map].
  apply NoDup_cons. split; [|by apply IH].
  intros Hin. apply Hx.
  change (map fst ?l) with (fst <$> l) in *.
  apply list_elem_of_fmap in Hin as (y & Hy & Hin).
  apply list_elem_of_fmap. exists y. split; [exact Hy|].
  by apply list_elem_of_filter in Hin as [_ Hin].
Qed.

(** The listing order of a directory with distinct names is immaterial. *)
Lemma sorted_glob_perm (l l' : list (pystr * xml_file)) :
  NoDup (map fst l) -> l ≡ₚ l' -> sorted (glob_kml l) = sorted (glob_kml l').
Proof.
  intros Hnd Hp. apply Sorted_names_unique.
  - rewrite (Permutation_map fst (sorted_perm (glob_kml l))).
    apply NoDup_names_filter, Hnd.
  - apply sorted_Sorted.
  - apply sorted_Sorted.
  - rewrite !sorted_perm. unfold glob_kml. by rewrite Hp.
Qed.

Lemma process_all_points_ext w w' :
  base_kml w = base_kml w' -> output_paths w = output_paths w' ->
  open_raises w = open_raises w' ->
  get_destination_points w = get_destination_points w' ->
  process_all_points w = process_all_points w'.
Proof.
  intros Hb Ho Hr Hd. unfold process_all_points, process_try, get_base_point.
  by rewrite Hb, Ho, Hr, Hd.
Qed.

(** X8. The order in which the input directory lists its files does not
    matter: with distinct file names, any other listing of the same files
    gives the same destination points and the same run. *)
Theorem X8_listing_order_irrelevant w l l' :
  input_points_kml w = Some l -> NoDup (map fst l) -> l ≡ₚ l' ->
  get_destination_points (with_listing w l') = get_destination_points w
  /\ process_all_points (with_listing w l') = process_all_points w.
Proof.
  intros Hw Hnd Hp.
  assert (Hd : get_destination_points (with_listing w l')
               = get_destination_points w).
  { unfold get_destination_points. rewrite Hw. cbn [with_listing input_points_kml].
    by rewrite (sorted_glob_perm _ _ Hnd Hp). }
  split; [exact Hd|]. by apply process_all_points_ext.
Qed.

Lemma points_of_file_path entry p :
  p ∈ points_of_file entry -> dp_kml_path p = fst entry.
Proof.
  destruct entry as [name f]. unfold points_of_file.
  change (map ?g ?l) with (g <$> l).
  intros H. apply list_elem_of_fmap in H as (d & -> & _). reflexivity.
Qed.

Lemma flat_map_points_sorted files :
  StronglySorted name_le files ->
  StronglySorted path_le (flat_map points_of_file files).
Proof.
  induction 1 as [|x files Hs IH Hx]; [constructor|].
  cbn [flat_map]. apply StronglySorted_app_2; [| |exact IH].
  - intros p q Hp Hq. apply list_elem_of_In, in_flat_map in Hq as (y & Hy & Hq).
    apply list_elem_of_In in Hy, Hq. rewrite Forall_forall in Hx.
    unfold path_le. rewrite (points_of_file_path _ _ Hp), (points_of_file_path _ _ Hq).
    by apply Hx.
  - assert (Hall : Forall (fun p => dp_kml_path p = fst x) (points_of_file x)).
    { apply Forall_forall. intros p. apply points_of_file_path. }
    induction Hall as [|p ps Hp Hps IHps]; constructor; [exact IHps|].
    eapply Forall_impl; [exact Hps|]. intros q Hq. unfold path_le.
    rewrite Hp, Hq. apply pystr_leb_refl.
Qed.

(** X9. The destination points come in the order of the names of their
    files, whatever the order of the listing, and every one of them comes
    from a listed file whose name ends in [.kml]. *)
Theorem X9_points_in_name_order w :
  StronglySorted path_le (get_destination_points w)
  /\ Forall (fun p => endswith (py ".kml") (dp_kml_path p) = true
                      /\ exists listing f,
                           input_points_kml w = Some listing
                           /\ (dp_kml_path p, f) ∈ listing)
            (get_destination_points w).
Proof.
  unfold get_destination_points.
  destruct (input_points_kml w) as [listing|]; [|split; constructor].
  split.
  - apply flat_map_points_sorted, Sorted_StronglySorted; [apply _|].
    apply sorted_Sorted.
  - apply Forall_forall. intros p Hp.
    apply list_elem_of_In, in_flat_map in Hp as ([name f] & Hy & Hp).
    apply list_elem_of_In in Hy, Hp.
    rewrite (points_of_file_path _ _ Hp). cbn [fst].
    rewrite sorted_perm in Hy. apply list_elem_of_filter in Hy as [Hk Hy].
    split; [exact Hk|]. by exists listing, f.
Qed.



End InputDirectory.

Lemma X8_listing_order_witness :
  process_all_points (rt := int_runtime)
    (with_listing sample_world
       [(py "notes.txt", Unparsable); (py "a.kml", Parsed short_then_good);
        (py "b.kml", Parsed twin_towers)])
  = process_all_points (rt := int_runtime) sample_world.
Proof.
  refine (proj2 (X8_listing_order_irrelevant (rt := int_runtime) sample_world
                   _ _ eq_refl _ _)).
  - apply (bool_decide_unpack _). vm_compute. exact I.
  - etransitivity; [apply Permutation_swap|]. cbn.
    etransitivity; [apply perm_skip, Permutation_swap|]. apply Permutation_swap.
Defined.


Section RunEffects.
Context {rt : PyRuntime}.

Lemma opened_elem_of r names n : n ∈ opened r names -> n ∈ names.
Proof.
  intros H. apply list_elem_of_lookup in H as [k Hk].
  apply opened_lookup in Hk as [Hk _]. by eapply list_elem_of_lookup_2.
Qed.




(** X13. An output file name consists of a part made of alphanumerics,
    underscores and hyphens, not empty, followed by [.kml]: it holds no
    path separator, no whitespace and no NUL, whatever the label is. *)
Theorem X13_filename_safe i table_attribute :
  (exists body,
     mission_filename i table_attribute = body ++ py ".kml"
     /\ body <> []
     /\ Forall (fun c => clean_char c = true /\ isspace c = false) body)
  /\ Forall (fun c => c <> ch "/" /\ c <> 0%N /\ isspace c = false)
            (mission_filename i table_attribute).
Proof.
  assert (Hdigit : forall c, isdigit_ascii c = true ->
                     clean_char c = true /\ isspace c = false).
  { intros c Hc. unfold isdigit_ascii in Hc.
    apply andb_true_iff in Hc as [H1 H2]. apply N.leb_le in H1, H2.
    assert (Hlt : (c <? 128)%N = true) by (apply N.ltb_lt; lia).
    split.
    - unfold clean_char, isalnum, isdigit_ascii. rewrite Hlt.
      assert ((48 <=? c)%N = true) as -> by (by apply N.leb_le).
      assert ((c <=? 57)%N = true) as -> by (by apply N.leb_le). reflexivity.
    - unfold isspace.
      repeat match goal with
             | |- context [(?a <=? c)%N] => destruct (N.leb_spec a c); try lia
             | |- context [(c <=? ?a)%N] => destruct (N.leb_spec c a); try lia
             | |- context [(c =? ?a)%N] => destruct (N.eqb_spec c a); try lia
             end; reflexivity. }
  assert (Hbody : exists body,
     mission_filename i table_attribute = body ++ py ".kml"
     /\ body <> []
     /\ Forall (fun c => clean_char c = true /\ isspace c = false) body).
  { rewrite mission_filename_eq.
    assert (Hf : Forall (fun c => clean_char c = true /\ isspace c = false)
                        (format_03d i)).
    { eapply Forall_impl; [apply format_03d_digits | exact Hdigit]. }
    assert (Hne : format_03d i <> []).
    { pose proof (format_03d_length i). destruct (format_03d i); [cbn in *; lia|].
      discriminate. }
    destruct (truthy table_attribute) as [label|].
    - exists (format_03d i ++ py "_" ++ sanitize label).
      rewrite <- !app_assoc. split; [reflexivity|]. split.
      + destruct (format_03d i); [done | discriminate].
      + apply Forall_app. split; [exact Hf|]. apply Forall_app. split.
        * by repeat constructor.
        * apply sanitize_clean.
    - exists (format_03d i). by repeat split. }
  split; [exact Hbody|]. destruct Hbody as (body & -> & _ & Hb).
  apply Forall_app. split.
  - eapply Forall_impl; [exact Hb|]. intros c [Hc Hs].
    repeat split; [| |exact Hs]; intros ->; vm_compute in Hc; discriminate.
  - vm_compute. repeat constructor; discriminate.
Qed.

End RunEffects.


Section HeaderCell.

Lemma ci_lit_tests lit : ci_lit lit = map Chr (map ci_char (py lit)).
Proof. unfold ci_lit. by rewrite map_map. Qed.

(** A word spelled up to case is consumed by its pattern. *)
Lemma match_here_word (l : pystr) pat w s gs g1 :
  Forall2 (fun a c => ci_char a c = true) l w ->
  match_here (map Chr (map ci_char l) ++ pat) (w ++ s) gs g1
  = match_here pat s gs g1.
Proof.
  induction 1 as [|a c l w Hac _ IH]; [reflexivity|].
  cbn [map app match_here]. by rewrite Hac.
Qed.

(** The pattern fails where the text disagrees with its first tests. *)
Lemma match_here_incompat ps : forall pat x r gs g1,
  compat_chr ps x = false ->
  match_here (map Chr ps ++ pat) (x ++ r) gs g1 = None.
Proof.
  induction ps as [|p ps IH]; intros pat x r gs g1 H; [discriminate|].
  destruct x as [|c x]; [discriminate|]. cbn [compat_chr] in H.
  cbn [map app match_here]. destruct (p c); [|reflexivity].
  by apply IH.
Qed.

Lemma no_start_chr_cons ps c x :
  no_start_chr ps (c :: x) = true ->
  compat_chr ps (c :: x) = false /\ no_start_chr ps x = true.
Proof.
  cbn [no_start_chr]. intros H. apply andb_true_iff in H as [H1 H2].
  by apply negb_true_iff in H1.
Qed.

Lemma re_search_skip ps pat x r :
  no_start_chr ps x = true ->
  re_search (map Chr ps ++ pat) (x ++ r) = re_search (map Chr ps ++ pat) r.
Proof.
  induction x as [|c x IH]; intros H; [reflexivity|].
  apply no_start_chr_cons in H as [Hc Hx].
  cbn [app re_search]. unfold match_at.
  change (c :: x ++ r) with ((c :: x) ++ r).
  rewrite (match_here_incompat _ _ _ _ _ _ Hc). by apply IH.
Qed.

Lemma re_search_here pat s r :
  match_at pat s = Some r -> re_search pat s = Some r.
Proof. intros H. destruct s; cbn [re_search]; by rewrite H. Qed.

(** A lazy repetition passes over a text in which what follows it cannot
    start. *)
Lemma lazy_skip ps pat x r gs g1 :
  no_start_chr ps x = true ->
  match_here (StarL any_char :: map Chr ps ++ pat) (x ++ r) gs g1
  = match_here (StarL any_char :: map Chr ps ++ pat) r gs g1.
Proof.
  induction x as [|c x IH]; intros H; [reflexivity|].
  apply no_start_chr_cons in H as [Hc Hx].
  rewrite match_here_starL_eq.
  change ((c :: x) ++ r) with (c :: x ++ r) at 2.
  rewrite (match_here_incompat _ _ _ _ _ _ Hc). cbn [app any_char]. by apply IH.
Qed.

Lemma lazy_skip_close ps pat x r gs g1 :
  no_start_chr ps x = true ->
  match_here (StarL any_char :: GClose :: map Chr ps ++ pat) (x ++ r) gs g1
  = match_here (StarL any_char :: GClose :: map Chr ps ++ pat) r gs g1.
Proof.
  induction x as [|c x IH]; intros H; [reflexivity|].
  apply no_start_chr_cons in H as [Hc Hx].
  rewrite match_here_starL_eq.
  change (match_here (GClose :: map Chr ps ++ pat) ((c :: x) ++ r) gs g1)
    with (match_here (map Chr ps ++ pat) ((c :: x) ++ r) gs
            (take (length gs - length ((c :: x) ++ r)) gs)).
  rewrite (match_here_incompat _ _ _ _ _ _ Hc). cbn [app any_char]. by apply IH.
Qed.

Lemma lazy_here pat s gs g1 r :
  match_here pat s gs g1 = Some r ->
  match_here (StarL any_char :: pat) s gs g1 = Some r.
Proof. intros H. by rewrite match_here_starL_eq, H. Qed.

(** Inside a tag: the greedy [[^>]*] followed by [>] runs to the first
    [>]. *)
Lemma greedy_to_gt pat z t gs g1 :
  no_gt z ->
  match_here (StarG (not_char (ch ">")) :: Chr (is_char (ch ">")) :: pat)
             (z ++ ch ">" :: t) gs g1
  = match_here pat t gs g1.
Proof.
  induction 1 as [|c z Hc Hz IH].
  - cbn [app]. rewrite match_here_starG_cons. reflexivity.
  - cbn [app]. rewrite match_here_starG_cons, IH.
    assert (Hn : not_char (ch ">") c = true).
    { unfold not_char. by apply negb_true_iff, N.eqb_neq. }
    rewrite Hn. destruct (match_here pat t gs g1); [reflexivity|].
    cbn [match_here]. unfold is_char.
    by apply N.eqb_neq in Hc as ->.
Qed.

Lemma ci_char_not_gt a c :
  a <> ch ">" -> ci_char a c = true -> c <> ch ">".
Proof.
  intros Ha H ->. unfold ci_char in H.
  apply orb_true_iff in H as [H|H]; [apply orb_true_iff in H as [H|H]|].
  - apply N.eqb_eq in H. congruence.
  - apply andb_true_iff in H as [Hl H]. apply N.eqb_eq in H. subst a.
    vm_compute in Hl. discriminate.
  - apply andb_true_iff in H as [_ H]. vm_compute in H. discriminate.
Qed.

(** A word and the rest of a tag, matched anywhere before the first [>],
    end at that [>]. *)
Lemma word_in_tag (l : pystr) pat : forall z t gs g1 r,
  Forall (fun a => a <> ch ">") l -> no_gt z ->
  match_here (map Chr (map ci_char l)
              ++ StarG (not_char (ch ">")) :: Chr (is_char (ch ">")) :: pat)
             (z ++ ch ">" :: t) gs g1 = Some r ->
  match_here pat t gs g1 = Some r.
Proof.
  induction l as [|a l IH]; intros z t gs g1 r Hl Hz H.
  - cbn [map app] in H. by rewrite greedy_to_gt in H.
  - inversion Hl as [|? ? Ha Hl']; subst. cbn [map app] in H.
    destruct z as [|c z].
    + cbn [app match_here] in H. destruct (ci_char a (ch ">")) eqn:E; [|discriminate].
      by apply ci_char_not_gt in E.
    + cbn [app match_here] in H. destruct (ci_char a c); [|discriminate].
      inversion Hz; subst. by eapply IH.
Qed.

Lemma starG_result p pat : forall s gs g1 r,
  match_here (StarG p :: pat) s gs g1 = Some r ->
  exists y x, s = y ++ x /\ Forall (fun c => p c = true) y
              /\ match_here pat x gs g1 = Some r.
Proof.
  induction s as [|c s IH]; intros gs g1 r H.
  - rewrite match_here_starG_nil in H. by exists [], [].
  - rewrite match_here_starG_cons in H. destruct (p c) eqn:Hp.
    + destruct (match_here (StarG p :: pat) s gs g1) as [r'|] eqn:E.
      * injection H as ->. destruct (IH _ _ _ E) as (y & x & -> & Hy & Hx).
        exists (c :: y), x. repeat split; [by constructor | exact Hx].
      * by exists [], (c :: s).
    + by exists [], (c :: s).
Qed.

Lemma starG_is_Some p pat y : forall x gs g1,
  Forall (fun c => p c = true) y ->
  is_Some (match_here pat x gs g1) ->
  is_Some (match_here (StarG p :: pat) (y ++ x) gs g1).
Proof.
  intros x gs g1 Hy Hx. induction Hy as [|c y Hc Hy IH].
  - cbn [app]. destruct x as [|c s].
    + by rewrite match_here_starG_nil.
    + rewrite match_here_starG_cons. destruct (p c); [|exact Hx].
      by destruct (match_here (StarG p :: pat) s gs g1).
  - cbn [app]. rewrite match_here_starG_cons, Hc.
    destruct IH as [r ->]. by eexists.
Qed.

Lemma split_before_gt y x z t :
  no_gt z -> Forall (fun c => not_char (ch ">") c = true) y ->
  y ++ x = z ++ ch ">" :: t ->
  exists z', no_gt z' /\ x = z' ++ ch ">" :: t.
Proof.
  intros Hz Hy. revert z Hz. induction Hy as [|c y Hc Hy IH]; intros z Hz E.
  - exists z. by split.
  - destruct z as [|c' z].
    + cbn [app] in E. injection E as -> _. vm_compute in Hc. discriminate.
    + cbn [app] in E. injection E as -> E. inversion Hz; subst. by eapply IH.
Qed.

Lemma word_no_gt (l : pystr) w :
  Forall (fun a => a <> ch ">") l ->
  Forall2 (fun a c => ci_char a c = true) l w -> no_gt w.
Proof.
  intros Hl H. induction H as [|x c l w Hxc _ IH]; [constructor|].
  inversion Hl; subst. constructor; [by eapply ci_char_not_gt | by apply IH].
Qed.

(** The opening of the row: [[^>]*background[^>]*>] ends at the first [>]
    after the tag name, wherever the word is found. *)
Lemma row_opening pat a bg b t gs g1 r :
  no_gt a -> ci_eq "background" bg -> no_gt b ->
  match_here pat t gs g1 = Some r ->
  match_here (StarG (not_char (ch ">")) :: ci_lit "background"
              ++ StarG (not_char (ch ">")) :: Chr (is_char (ch ">")) :: pat)
             (a ++ bg ++ b ++ ch ">" :: t) gs g1 = Some r.
Proof.
  intros Ha Hbg Hb Hr. rewrite ci_lit_tests.
  assert (Hbg' : no_gt bg).
  { eapply word_no_gt; [|exact Hbg]. repeat constructor; discriminate. }
  assert (Hsome : is_Some (match_here
            (StarG (not_char (ch ">")) :: map Chr (map ci_char (py "background"))
             ++ StarG (not_char (ch ">")) :: Chr (is_char (ch ">")) :: pat)
            (a ++ bg ++ b ++ ch ">" :: t) gs g1)).
  { apply starG_is_Some; [by apply no_gt_iff|].
    rewrite (match_here_word _ _ _ _ _ _ Hbg), greedy_to_gt by exact Hb.
    by eexists. }
  destruct Hsome as [r' Hr']. rewrite Hr'. f_equal.
  apply starG_result in Hr' as (y & x & E & Hy & Hx).
  assert (Hregion : no_gt (a ++ bg ++ b)).
  { apply Forall_app. split; [exact Ha|]. apply Forall_app. by split. }
  assert (E' : y ++ x = (a ++ bg ++ b) ++ ch ">" :: t)
    by (by rewrite <- E, <- !app_assoc).
  destruct (split_before_gt _ _ _ _ Hregion Hy E') as (z' & Hz' & ->).
  apply word_in_tag in Hx; [congruence| |exact Hz'].
  repeat constructor; discriminate.
Qed.

End HeaderCell.

Section HeaderCellClaim.

Lemma table_pattern_shape :
  table_pattern =
  map Chr (map ci_char (py "<tr"))
  ++ StarG (not_char (ch ">")) :: ci_lit "background"
  ++ StarG (not_char (ch ">")) :: Chr (is_char (ch ">"))
  :: StarL any_char :: map Chr (map ci_char (py "<td"))
  ++ StarG (not_char (ch ">")) :: Chr (is_char (ch ">"))
  :: GOpen :: after_td_pattern.
Proof.
  unfold table_pattern, after_td_pattern. rewrite app_nil_r, <- !ci_lit_tests.
  reflexivity.
Qed.

Lemma take_app_exact (x y : pystr) : take (length (x ++ y) - length y) (x ++ y) = x.
Proof.
  rewrite length_app. replace (length x + length y - length y) with (length x) by lia.
  by rewrite take_app_length.
Qed.

(** The cell: the lazy [(.*?)] stops at the first closing tag. *)
Lemma cell_group cell close post g1 :
  ci_eq "</td>" close -> cannot_start "</td>" cell ->
  match_here after_td_pattern (cell ++ close ++ post) (cell ++ close ++ post) g1
  = Some {| group1 := cell; rest := post |}.
Proof.
  intros Hclose Hcell. unfold after_td_pattern.
  rewrite (lazy_skip_close _ _ _ _ _ _ Hcell).
  apply lazy_here.
  change (match_here (GClose :: ?p) ?s ?gs ?g)
    with (match_here p s gs (take (length gs - length s) gs)).
  rewrite (match_here_word _ _ _ _ _ _ Hclose). cbn [match_here].
  by rewrite take_app_exact.
Qed.

Lemma search_header_cell pre tr a bg b c td d cell close post :
  ci_eq "<tr" tr -> ci_eq "background" bg -> ci_eq "<td" td ->
  ci_eq "</td>" close ->
  cannot_start "<tr" pre -> no_gt a -> no_gt b -> cannot_start "<td" c ->
  no_gt d -> cannot_start "</td>" cell ->
  re_search table_pattern
    (pre ++ tr ++ a ++ bg ++ b ++ [ch ">"] ++ c ++ td ++ d ++ [ch ">"]
         ++ cell ++ close ++ post)
  = Some {| group1 := cell; rest := post |}.
Proof.
  intros Htr Hbg Htd Hclose Hpre Ha Hb Hc Hd Hcell.
  rewrite table_pattern_shape.
  rewrite (re_search_skip _ _ _ _ Hpre). apply re_search_here. unfold match_at.
  rewrite (match_here_word _ _ _ _ _ _ Htr).
  apply row_opening; [exact Ha | exact Hbg | exact Hb|].
  rewrite (lazy_skip _ _ _ _ _ _ Hc). apply lazy_here.
  rewrite (match_here_word _ _ _ _ _ _ Htd).
  change (d ++ [ch ">"] ++ ?t) with (d ++ ch ">" :: t).
  rewrite greedy_to_gt by exact Hd.
  change (match_here (GOpen :: ?p) ?s ?gs ?g) with (match_here p s s g).
  by apply cell_group.
Qed.

Lemma match_at_tag_other c s :
  c <> ch "<" -> match_at tag_pattern (c :: s) = None.
Proof.
  intros Hc. unfold match_at, tag_pattern. cbn [match_here]. unfold is_char.
  by apply N.eqb_neq in Hc as ->.
Qed.

(** A text without [<] holds no tag to remove. *)
Lemma re_sub_tag_free s :
  Forall (fun c => c <> ch "<") s -> re_sub tag_pattern [] s = s.
Proof.
  unfold re_sub. induction 1 as [|c s Hc _ IH]; [reflexivity|].
  cbn [re_sub_from]. by rewrite (match_at_tag_other c s Hc), IH.
Qed.

(** X14. When the first [<tr] of an annotation opens a row whose tag holds
    the word [background] and whose first cell follows, the extractor
    returns the text of that cell up to its closing tag, trimmed and freed
    of tags, or absence when nothing is left; a cell without markup is
    returned trimmed. Tags are read without regard to case. *)
Theorem X14_header_cell_extracted pre tr a bg b c td d cell close post :
  ci_eq "<tr" tr -> ci_eq "background" bg -> ci_eq "<td" td ->
  ci_eq "</td>" close ->
  cannot_start "<tr" pre -> no_gt a -> no_gt b -> cannot_start "<td" c ->
  no_gt d -> cannot_start "</td>" cell ->
  let html_text :=
    pre ++ tr ++ a ++ bg ++ b ++ [ch ">"] ++ c ++ td ++ d ++ [ch ">"]
        ++ cell ++ close ++ post in
  extract_html_table_attribute_from_text html_text
    = Return (some_nonempty (strip (re_sub tag_pattern [] (strip cell))))
  /\ (Forall (fun x => x <> ch "<") cell ->
      extract_html_table_attribute_from_text html_text
        = Return (some_nonempty (strip cell))).
Proof.
  intros Htr Hbg Htd Hclose Hpre Ha Hb Hc Hd Hcell html_text.
  assert (He : extract_html_table_attribute_from_text html_text
    = Return (some_nonempty (strip (re_sub tag_pattern [] (strip cell))))).
  { rewrite extract_eq. unfold extract_try, html_text.
    rewrite (search_header_cell _ _ _ _ _ _ _ _ _ _ _
               Htr Hbg Htd Hclose Hpre Ha Hb Hc Hd Hcell).
    cbn [group1].
    destruct (pre ++ tr ++ a ++ bg ++ b ++ [ch ">"] ++ c ++ td ++ d ++ [ch ">"]
                  ++ cell ++ close ++ post) eqn:E.
    - exfalso. apply app_eq_nil in E as [_ E]. apply app_eq_nil in E as [E _].
      subst tr. inversion Htr.
    - by destruct (strip (re_sub tag_pattern [] (strip cell))). }
  split; [exact He|]. intros Hfree. rewrite He.
  rewrite re_sub_tag_free by (by apply Forall_strip). by rewrite strip_strip.
Qed.

End HeaderCellClaim.

Lemma X14_header_cell_witness :
  extract_html_table_attribute_from_text
    (py "<table><TR style='background-color:#ccc'> <td class='h'> <b>Tower A</b> </TD></tr>")
  = Return (Some (py "Tower A")).
Proof.
  refine (proj1 (X14_header_cell_extracted
            (py "<table>") (py "<TR") (py " style='") (py "background")
            (py "-color:#ccc'") (py " ") (py "<td") (py " class='h'")
            (py " <b>Tower A</b> ") (py "</TD>") (py "</tr>")
            _ _ _ _ _ _ _ _ _ _));
    try (by repeat constructor); try (vm_compute; reflexivity);
    try (apply no_gt_iff, Forall_forall; vm_compute; intros x Hx;
         repeat (apply list_elem_of_cons in Hx as [-> | Hx]; [reflexivity|]);
         by apply list_elem_of_nil in Hx).
Defined.

Section Lookup.

Lemma head_filter_Some {A} (P : A -> Prop) `{forall x, Decision (P x)}
  (l : list A) c :
  head (filter P l) = Some c ->
  exists before after, l = before ++ c :: after /\ P c
                       /\ Forall (fun x => ~ P x) before.
Proof.
  induction l as [|x l IH]; [discriminate|]. rewrite filter_cons.
  destruct (decide (P x)) as [Hx|Hx].
  - cbn. intros [= ->]. by exists [], l.
  - intros Hc. destruct (IH Hc) as (before & after & -> & Hp & Hb).
    exists (x :: before), after. repeat split; [exact Hp | by constructor].
Qed.

Lemma head_filter_None {A} (P : A -> Prop) `{forall x, Decision (P x)}
  (l : list A) :
  head (filter P l) = None <-> Forall (fun x => ~ P x) l.
Proof.
  induction l as [|x l IH]; [by split; [constructor|]|]. rewrite filter_cons.
  destruct (decide (P x)) as [Hx|Hx].
  - split; [discriminate|]. by inversion 1.
  - rewrite IH. split; [by constructor | by inversion 1].
Qed.

(** X15. The lookup used for coordinates, names and descriptions returns
    the first descendant, in document order, that carries the qualified
    tag; it turns to the first one with the unqualified tag only when no
    descendant is qualified, and finds nothing exactly when no descendant
    has either tag. The markers of a document are likewise all qualified
    or all unqualified. *)
Theorem X15_namespace_lookup (local : string) (e : element) :
  (forall c, find_kml local e = Some c ->
     exists before after,
       descendants e = before ++ c :: after
       /\ ((tag c = kml local /\ Forall (fun d => tag d <> kml local) before)
           \/ (tag c = py local
               /\ Forall (fun d => tag d <> py local) before
               /\ Forall (fun d => tag d <> kml local) (descendants e))))
  /\ (find_kml local e = None <->
      Forall (fun d => tag d <> kml local /\ tag d <> py local) (descendants e))
  /\ (Forall (fun m => tag m = kml "Placemark") (placemarks_of e)
      \/ Forall (fun m => tag m = py "Placemark") (placemarks_of e)).
Proof.
  split; [|split].
  - intros c. unfold find_kml, find, findall.
    destruct (head (filter (fun d => tag d = kml local) (descendants e)))
      as [x|] eqn:E.
    + intros [= ->]. apply head_filter_Some in E as (before & after & -> & Hc & Hb).
      exists before, after. split; [reflexivity|]. by left.
    + intros Hc. apply head_filter_None in E.
      apply head_filter_Some in Hc as (before & after & Hd & Hc & Hb).
      exists before, after. split; [exact Hd|]. right. by repeat split.
  - unfold find_kml, find, findall.
    destruct (head (filter (fun d => tag d = kml local) (descendants e)))
      as [x|] eqn:E.
    + split; [discriminate|]. intros H.
      apply head_filter_Some in E as (before & after & Hd & Hx & _).
      rewrite Hd in H. apply Forall_app in H as [_ H].
      inversion H as [|? ? [Hn _] _]. by destruct Hn.
    + apply head_filter_None in E. rewrite head_filter_None.
      split.
      * intros H. apply Forall_and. by split.
      * intros H. by apply Forall_and in H as [_ H].
  - unfold placemarks_of, findall.
    destruct (filter (fun d => tag d = kml "Placemark") (descendants e))
      as [|m ms] eqn:E.
    + right. apply Forall_forall. intros m Hm.
      by apply list_elem_of_filter in Hm as [Hm _].
    + left. rewrite <- E. apply Forall_forall. intros x Hx.
      by apply list_elem_of_filter in Hx as [Hx _].
Qed.

End Lookup.

Lemma X15_namespace_lookup_witness :
  exists before after,
    descendants
      (el "Placemark" ""
          [el "coordinates" "9,9" [];
           Element (kml "coordinates") (Some (py "1,2")) []])
    = before ++ Element (kml "coordinates") (Some (py "1,2")) [] :: after.
Proof.
  destruct (proj1 (X15_namespace_lookup "coordinates"
                     (el "Placemark" ""
                         [el "coordinates" "9,9" [];
                          Element (kml "coordinates") (Some (py "1,2")) []]))
                  (Element (kml "coordinates") (Some (py "1,2")) []) eq_refl)
    as (before & after & H & _).
  by exists before, after.
Defined.

Section BasePointErrors.
Context {rt : PyRuntime}.

(** X16. Reading the base point raises [FileNotFoundError] exactly when
    [base.kml] is absent, [ValueError] exactly when the file is there but
    single-point mode finds no point in it (it cannot be parsed, or its
    first coordinates node yields none), and nothing else. *)
Theorem X16_base_point_errors w :
  (get_base_point w = Raise FileNotFoundError <-> base_kml w = None)
  /\ (get_base_point w = Raise ValueError <->
      exists f, base_kml w = Some f /\ parse_kml_point f = Return None)
  /\ (forall e, get_base_point w = Raise e ->
        e = FileNotFoundError \/ e = ValueError).
Proof.
  split; [|split; [|apply get_base_point_raise]].
  - unfold get_base_point. destruct (base_kml w) as [f|]; [|by split].
    split; [|discriminate]. destruct f as [|root].
    + cbn. discriminate.
    + rewrite parse_kml_point_eq, bind_Return.
      destruct (_ ≫= _); discriminate.
  - unfold get_base_point. destruct (base_kml w) as [f|].
    + split.
      * intros H. exists f. split; [reflexivity|]. destruct f as [|root].
        -- reflexivity.
        -- rewrite parse_kml_point_eq in *. rewrite bind_Return in H.
           destruct (_ ≫= _); [discriminate | reflexivity].
      * intros (f' & [= <-] & ->). reflexivity.
    + split; [discriminate|]. by intros (f & [=] & _).
Qed.

End BasePointErrors.

Lemma X2_sanitize_blank_witness :
  sanitize (rt := int_runtime) (py "   ") = [].
Proof.
  refine (proj2 (X2_sanitize_empty_iff_blank (rt := int_runtime) (py "   ")) _).
  repeat constructor.
Defined.


Lemma X16_base_point_errors_witness :
  get_base_point (rt := int_runtime) (world_of None []) = Raise FileNotFoundError
  /\ get_base_point (rt := int_runtime) (world_of (Some Unparsable) [])
     = Raise ValueError.
Proof.
  split.
  - exact (proj2 (proj1 (X16_base_point_errors (rt := int_runtime)
                           (world_of None []))) eq_refl).
  - refine (proj2 (proj1 (proj2 (X16_base_point_errors (rt := int_runtime)
                           (world_of (Some Unparsable) [])))) _).
    exists Unparsable. split; reflexivity.
Defined.
